(** * A shallow embedding of [dftimewolf/lib/state.py] ([DFTimewolfState]).

    The state object is a record; its methods are functions in a small
    state-and-exception monad [M] (Python exceptions are the [inl] branch).
    Logging, module entry-point calls and streaming-callback invocations are
    recorded, in order, in the [obs] field, so that orderings can be stated.
    The run phase, where one thread per module runs [_RunModuleThread], is a
    per-thread step function and an interleaving step relation over all
    threads. *)

From Stdlib Require Import String Ascii ZArith Lia.
From stdpp Require Import base gmap strings list.

(* ------------------------------------------------------------------ *)
(** ** Data model *)

(** [errors.DFTimewolfError] as far as the state uses it. *)
Record ErrorRecord := mkError {
  err_message : string;
  err_name : string;
  err_stacktrace : string;   (** "" stands for a missing stack trace *)
  err_critical : bool;
  err_unexpected : bool
}.

(** An attribute container: its Python class ([type(container)], the key of
    [streaming_callbacks]) and its [CONTAINER_TYPE] (the key of [store]). *)
Record Container := mkContainer {
  c_class : string;
  c_type : string;
  c_id : nat
}.

(** Python exceptions that reach the state's code. *)
Inductive Exc :=
| ExDFTimewolf (e : ErrorRecord)   (* errors.DFTimewolfError *)
| ExCritical (msg : string)        (* errors.CriticalError, a DFTimewolfError *)
| ExOther (msg : string).          (* any other Exception *)

(** A streaming callback: a number identifying it, and what its call on a
    container does: the calls it makes on the state (storing a container,
    recording an error, caching a value, registering a further callback),
    then returning or raising. A callback that streams containers itself is
    not covered. *)
Inductive Callback :=
| mkCallback (cb_id : nat) (cb_code : Container -> CallbackRun)
with CallbackRun :=
| mkCallbackRun (cr_actions : list CbAction) (cr_raises : option Exc)
with CbAction :=
| CStore (c : Container)                       (* state.StoreContainer *)
| CAddError (e : ErrorRecord)                  (* state.AddError *)
| CCache (name value : string)                 (* state.AddToCache *)
| CRegister (cb : Callback) (cls : string).    (* state.RegisterStreamingCallback *)

Definition cb_id (cb : Callback) : nat := match cb with mkCallback i _ => i end.
Definition cb_code (cb : Callback) : Container -> CallbackRun :=
  match cb with mkCallback _ f => f end.
Definition cr_actions (r : CallbackRun) : list CbAction := match r with mkCallbackRun l _ => l end.
Definition cr_raises (r : CallbackRun) : option Exc := match r with mkCallbackRun _ e => e end.

(** What the logger receives (one constructor per format string). *)
Inductive LogLine :=
| LErrorsHeader                                 (* 'dfTimewolf encountered one or more errors:' *)
| LErrorLine (index : nat) (origin msg : string) (* '{0:d}: error from {1:s}: {2:s}' *)
| LTraceLine (line : string)
| LUnexpected                                   (* 'One or more unexpected errors occurred.' *)
| LIssueUrl (url : string)                      (* 'Please consider opening an issue: {0:s}' *)
| LSettingUp (name : string)
| LSetupCritical (name : string)                (* 'A critical error occurred in module ...' *)
| LRunCritical (name : string)                  (* 'Critical error in module ...' *)
| LUnknownError (msg : string)                  (* 'An unknown error occurred in module ...' *)
| LAborting (name : string)                     (* 'Aborting execution of ... due to previous errors' *)
| LRunning (name : string)
| LThreads (count : nat) (max : Z) (name : string)
| LFinished (name : string).

(** Module entry points called by the state. *)
Inductive Entry :=
| EPreSetUp | ESetUp | EPostSetUp
| EPreProcess | EProcess | EProcessOne (c : Container) | EPostProcess.

Inductive Obs :=
| OCall (module : string) (e : Entry)
| OCallback (cb : nat) (c : Container)       (* callback [cb] is called *)
| OLog (l : LogLine).

Record State := mkState {
  cache : gmap string string;
  store : gmap string (list Container);
  errors : list ErrorRecord;
  global_errors : list ErrorRecord;
  threading_event_per_module : gmap string bool;   (* event is_set() *)
  streaming_callbacks : gmap string (list Callback);
  abort_execution : bool;
  obs : list Obs
}.

Definition set_cache v s := mkState v (store s) (errors s) (global_errors s)
  (threading_event_per_module s) (streaming_callbacks s) (abort_execution s) (obs s).
Definition set_store v s := mkState (cache s) v (errors s) (global_errors s)
  (threading_event_per_module s) (streaming_callbacks s) (abort_execution s) (obs s).
Definition set_errors v s := mkState (cache s) (store s) v (global_errors s)
  (threading_event_per_module s) (streaming_callbacks s) (abort_execution s) (obs s).
Definition set_global_errors v s := mkState (cache s) (store s) (errors s) v
  (threading_event_per_module s) (streaming_callbacks s) (abort_execution s) (obs s).
Definition set_events v s := mkState (cache s) (store s) (errors s) (global_errors s)
  v (streaming_callbacks s) (abort_execution s) (obs s).
Definition set_callbacks v s := mkState (cache s) (store s) (errors s) (global_errors s)
  (threading_event_per_module s) v (abort_execution s) (obs s).
Definition set_abort v s := mkState (cache s) (store s) (errors s) (global_errors s)
  (threading_event_per_module s) (streaming_callbacks s) v (obs s).
Definition set_obs v s := mkState (cache s) (store s) (errors s) (global_errors s)
  (threading_event_per_module s) (streaming_callbacks s) (abort_execution s) v.

(** [DFTimewolfState.__init__] *)
Definition init_state : State := mkState ∅ ∅ [] [] ∅ ∅ false [].

(* ------------------------------------------------------------------ *)
(** ** State and exception monad *)

Definition M (A : Type) := State -> State * (Exc + A).

Definition ret {A} (a : A) : M A := fun s => (s, inr a).
Definition bind {A B} (m : M A) (k : A -> M B) : M B := fun s =>
  match m s with
  | (s', inl e) => (s', inl e)
  | (s', inr a) => k a s'
  end.
Definition raise {A} (e : Exc) : M A := fun s => (s, inl e).
Definition modify (f : State -> State) : M unit := fun s => (f s, inr tt).
Definition gets {A} (f : State -> A) : M A := fun s => (s, inr (f s)).

(** [try: m except: h] *)
Definition try_except {A} (m : M A) (h : Exc -> M A) : M A := fun s =>
  match m s with
  | (s', inl e) => h e s'
  | r => r
  end.

(** [try: m finally: fin] *)
Definition try_finally {A} (m : M A) (fin : M unit) : M A := fun s =>
  let (s1, r) := m s in
  match fin s1 with
  | (s2, inl e) => (s2, inl e)
  | (s2, inr _) => (s2, r)
  end.

Notation "'let*' x ':=' m 'in' k" := (bind m (fun x => k))
  (at level 200, x name, m at level 100, k at level 200).

Fixpoint mapM_ {A} (f : A -> M unit) (l : list A) : M unit :=
  match l with
  | [] => ret tt
  | x :: l' => let* _ := f x in mapM_ f l'
  end.

Definition emit (o : Obs) : M unit := modify (fun s => set_obs (obs s ++ [o]) s).
Definition log (l : LogLine) : M unit := emit (OLog l).

(* ------------------------------------------------------------------ *)
(** ** Cache, store and streaming *)

Definition AddToCache (name value : string) : M unit :=
  modify (fun s => set_cache (<[name := value]> (cache s)) s).

Definition GetFromCache (name default_value : string) : M string :=
  gets (fun s => default default_value (cache s !! name)).

(** [self.store.setdefault(container.CONTAINER_TYPE, []).append(container)] *)
Definition StoreContainer (container : Container) : M unit :=
  modify (fun s =>
    set_store (<[c_type container :=
                  default [] (store s !! c_type container) ++ [container]]> (store s)) s).

(** [GetContainers]; the class argument is given by its [CONTAINER_TYPE]. *)
Definition GetContainers (container_type : string) (pop : bool) : M (list Container) :=
  fun s =>
    let container_objects := default [] (store s !! container_type) in
    ((if pop then set_store (<[container_type := []]> (store s)) s else s),
     inr container_objects).

(** [RegisterStreamingCallback]: the list of a class is created once and
    then only appended to. *)
Definition RegisterStreamingCallback (target : Callback) (container_type : string) : M unit :=
  modify (fun s =>
    set_callbacks (<[container_type :=
                     default [] (streaming_callbacks s !! container_type) ++ [target]]>
                   (streaming_callbacks s)) s).

(* ------------------------------------------------------------------ *)
(** ** Error ledger *)

Definition AddError (error : ErrorRecord) : M unit :=
  modify (fun s =>
    let s1 := if err_critical error then set_abort true s else s in
    set_errors (errors s1 ++ [error]) s1).

(** The two statements of [CleanUp]. *)
Definition cleanup_extend : M unit :=
  modify (fun s => set_global_errors (global_errors s ++ errors s) s).   (* self.global_errors.extend(self.errors) *)
Definition cleanup_clear : M unit :=
  modify (fun s => set_errors [] s).                                     (* self.errors = [] *)

Definition CleanUp : M unit :=
  let* _ := cleanup_extend in cleanup_clear.

(** [CleanUp] takes no lock: another thread's [AddError] may run between its
    two statements.  This is that interleaving, statement by statement. *)
Definition cleanup_race (error : ErrorRecord) : M unit :=
  let* _ := cleanup_extend in
  let* _ := AddError error in
  cleanup_clear.

(* ------------------------------------------------------------------ *)
(** ** Streaming dispatch *)

Definition run_cb_action (a : CbAction) : M unit :=
  match a with
  | CStore c => StoreContainer c
  | CAddError e => AddError e
  | CCache k v => AddToCache k v
  | CRegister cb cls => RegisterStreamingCallback cb cls
  end.

(** [callback(container)] *)
Definition call_callback (callback : Callback) (container : Container) : M unit :=
  let r := cb_code callback container in
  let* _ := emit (OCallback (cb_id callback) container) in
  let* _ := mapM_ run_cb_action (cr_actions r) in
  match cr_raises r with
  | None => ret tt
  | Some e => raise e
  end.

(** The callbacks a list of calls registers for class [cls], in order. *)
Fixpoint registered (cls : string) (l : list CbAction) : list Callback :=
  match l with
  | [] => []
  | CRegister cb cls' :: l' => if String.eqb cls' cls then cb :: registered cls l' else registered cls l'
  | _ :: l' => registered cls l'
  end.

(** How many iterations of the dispatch loop of [container] one callback
    accounts for: its own call and those of the callbacks it registers for
    the container's class (appended to the list being iterated), and so
    on. *)
Fixpoint dispatch_size (container : Container) (callback : Callback) {struct callback} : nat :=
  match callback with
  | mkCallback _ code =>
      match code container with
      | mkCallbackRun actions _ =>
          S ((fix go (l : list CbAction) : nat :=
                match l with
                | [] => 0
                | CRegister cb cls :: l' =>
                    (if String.eqb cls (c_class container) then dispatch_size container cb else 0)
                    + go l'
                | _ :: l' => go l'
                end) actions)
      end
  end.

(** The [for] loop of [StreamContainer] at position [i]. The list object
    it iterates is [self.streaming_callbacks[type(container)]] (no list is
    ever replaced), and Python's list iterator reads item [i] of that list
    as it is at that moment: callbacks appended during the loop are called
    in the same loop. [fuel] bounds the iterations; [StreamContainer] gives
    as many as the loop can take ([stream_loop_enough_fuel]). *)
Fixpoint stream_loop (fuel : nat) (container : Container) (i : nat) : M unit := fun s =>
  match fuel with
  | O => (s, inr tt)
  | S fuel' =>
      match default [] (streaming_callbacks s !! c_class container) !! i with
      | None => (s, inr tt)
      | Some callback =>
          bind (call_callback callback container) (fun _ => stream_loop fuel' container (S i)) s
      end
  end.

Definition stream_fuel (container : Container) (s : State) : nat :=
  S (sum_list_with (dispatch_size container)
                   (default [] (streaming_callbacks s !! c_class container))).

(** [for callback in self.streaming_callbacks.get(type(container), []):
       callback(container)] *)
Definition StreamContainer (container : Container) : M unit := fun s =>
  stream_loop (stream_fuel container s) container 0 s.

Definition NEW_ISSUE_URL : string := "https://github.com/log2timeline/dftimewolf/issues/new".

(** [str.split('\n')] *)
Fixpoint split_lines_from (cur : string) (s : string) : list string :=
  match s with
  | EmptyString => [cur]
  | String ch rest =>
      if Ascii.eqb ch (Ascii.ascii_of_nat 10) then cur :: split_lines_from "" rest
      else split_lines_from (cur ++ String ch EmptyString) rest
  end.
Definition split_lines (s : string) : list string := split_lines_from "" s.

(** The [for index, error in enumerate(error_objects)] loop; [index] is
    already [index+1], the result is the final [critical_errors]. *)
Fixpoint log_errors (index : nat) (es : list ErrorRecord) (critical_errors : bool) : M bool :=
  match es with
  | [] => ret critical_errors
  | error :: es' =>
      let* _ := log (LErrorLine index (err_name error) (err_message error)) in
      let* _ := (if String.eqb (err_stacktrace error) "" then ret tt
                 else mapM_ (fun line => log (LTraceLine line)) (split_lines (err_stacktrace error))) in
      log_errors (S index) es' (critical_errors || err_critical error)
  end.

Definition CheckErrors (is_global : bool) : M unit :=
  let* error_objects := gets (fun s => if is_global then global_errors s else errors s) in
  let* _ := (match error_objects with [] => ret tt | _ => log LErrorsHeader end) in
  let* critical_errors := log_errors 1 error_objects false in
  let* _ := (if existsb err_unexpected error_objects
             then let* _ := log LUnexpected in log (LIssueUrl NEW_ISSUE_URL)
             else ret tt) in
  if critical_errors then raise (ExCritical "Critical error found. Aborting.") else ret tt.

(* ------------------------------------------------------------------ *)
(** ** Modules *)

(** What module logic does through the state's API while it runs. *)
Inductive Action :=
| AStore (c : Container)                       (* state.StoreContainer *)
| AStream (c : Container)                      (* state.StreamContainer *)
| AAddError (e : ErrorRecord)                  (* state.AddError *)
| ACache (name value : string)                 (* state.AddToCache *)
| ARegister (cb : Callback) (cls : string).    (* state.RegisterStreamingCallback *)

(** How an entry point ends: normally, by a declared module error, or by
    any other exception. *)
Inductive Outcome :=
| OOk
| ODeclared (msg : string) (critical : bool)
| OOther (msg : string).

Record Behaviour := mkBehaviour {
  b_actions : list Action;
  b_outcome : Outcome
}.

Definition run_action (a : Action) : M unit :=
  match a with
  | AStore c => StoreContainer c
  | AStream c => StreamContainer c
  | AAddError e => AddError e
  | ACache k v => AddToCache k v
  | ARegister cb cls => RegisterStreamingCallback cb cls
  end.


(** Modelled from the spec: [BaseModule.ModuleError] of
    dftimewolf/lib/module.py, which is not under src/. Section 4.6: "Any
    error raised deliberately by module logic is recorded via [AddError]
    with [critical] as declared by the module and [unexpected=false]"; the
    error is then raised. *)
Definition ModuleError (name msg : string) (critical : bool) : M unit :=
  let error := mkError msg name "" critical false in
  let* _ := AddError error in
  raise (ExDFTimewolf error).

(** Calling one entry point of module [name]. *)
Definition run_entry (name : string) (entry : Entry) (b : Behaviour) : M unit :=
  let* _ := emit (OCall name entry) in
  let* _ := mapM_ run_action (b_actions b) in
  match b_outcome b with
  | OOk => ret tt
  | ODeclared msg critical => ModuleError name msg critical
  | OOther msg => raise (ExOther msg)
  end.

(** A [ThreadAwareModule]. *)
Record ThreadAware := mkThreadAware {
  ta_presetup : Behaviour;
  ta_setup : Behaviour;
  ta_postsetup : Behaviour;
  ta_preprocess : Behaviour;
  ta_container_type : string;              (* GetThreadOnContainerType() *)
  ta_pool_size : Z;                        (* GetThreadPoolSize() *)
  ta_process : Container -> Behaviour;     (* Process(container) *)
  ta_postprocess : Behaviour;
  ta_keep : bool                           (* KeepThreadedContainersInState() *)
}.

Inductive Module :=
| Plain (setup process : Behaviour)
| Aware (t : ThreadAware).

(** A recipe module definition. *)
Record ModuleDefinition := mkDef {
  md_name : string;
  md_runtime_name : option string;
  md_wants : list string
}.

(** [module_definition.get('runtime_name', module_name)] *)
Definition runtime_name (md : ModuleDefinition) : string :=
  default (md_name md) (md_runtime_name md).

(** [traceback.format_exc()] inside the handler of exception [e]. *)
Definition format_exc (e : Exc) : string :=
  match e with
  | ExDFTimewolf er => "Traceback: DFTimewolfError: " ++ err_message er
  | ExCritical msg => "Traceback: CriticalError: " ++ msg
  | ExOther msg => "Traceback: " ++ msg
  end.

Definition unknown_error_msg (name msg : string) : string :=
  "An unknown error occurred in module " ++ name ++ ": " ++ msg.

(** The record built by the broad [except Exception] handlers. *)
Definition wrap_unknown (name : string) (e : Exc) (msg : string) : ErrorRecord :=
  mkError (unknown_error_msg name msg) "state" (format_exc e) true true.

(** The two [except] clauses shared by [_SetupModuleThread] and
    [_RunModuleThread]; [crit] is the phase's critical log line. *)
Definition handle_module_errors (name : string) (crit : LogLine) (body : M unit) : M unit :=
  try_except body (fun e =>
    match e with
    | ExDFTimewolf _ | ExCritical _ => log crit
    | ExOther msg =>
        let* _ := log (LUnknownError (unknown_error_msg name msg)) in
        AddError (wrap_unknown name e msg)
    end).

(** A submitted [module.Process(container)] future: its exception, if any. *)
Definition run_unit (name : string) (t : ThreadAware) (c : Container) : M (option Exc) :=
  fun s =>
    match run_entry name (EProcessOne c) (ta_process t c) s with
    | (s', inl e) => (s', inr (Some e))
    | (s', inr _) => (s', inr None)
    end.

Fixpoint submit_all (name : string) (t : ThreadAware) (cs : list Container)
  : M (list (option Exc)) :=
  match cs with
  | [] => ret []
  | c :: cs' =>
      let* f := run_unit name t c in
      let* fs := submit_all name t cs' in
      ret (f :: fs)
  end.

(** [for fut in futures: if fut.exception(): raise fut.exception()] *)
Fixpoint first_exception (futures : list (option Exc)) : option Exc :=
  match futures with
  | [] => None
  | Some e :: _ => Some e
  | None :: fs => first_exception fs
  end.

(** The [isinstance(module, ThreadAwareModule)] branch of the [try] body of
    [_RunModuleThread]. [ThreadPoolExecutor(max_workers=n)] raises
    [ValueError] when [n <= 0]; leaving its [with] block waits for every
    submitted future. *)
Definition fan_out (name : string) (t : ThreadAware) : M unit :=
  let* _ := run_entry name EPreProcess (ta_preprocess t) in
  let* cs0 := GetContainers (ta_container_type t) false in
  let* _ := log (LThreads (length cs0) (ta_pool_size t) name) in
  let* _ := (if (ta_pool_size t <=? 0)%Z
             then raise (ExOther "max_workers must be greater than 0")
             else ret tt) in
  let* cs := GetContainers (ta_container_type t) false in
  let* futures := submit_all name t cs in
  let* _ := run_entry name EPostProcess (ta_postprocess t) in
  let* _ := (match first_exception futures with
             | Some e => raise e
             | None => ret tt
             end) in
  if ta_keep t then ret tt
  else let* _ := GetContainers (ta_container_type t) true in ret tt.

(** The [try] body of [_RunModuleThread]. *)
Definition run_logic (name : string) (m : Module) : M unit :=
  match m with
  | Plain _ process => run_entry name EProcess process
  | Aware t => fan_out name t
  end.

(** The [try] body of [_SetupModuleThread]. *)
Definition setup_logic (name : string) (m : Module) : M unit :=
  match m with
  | Plain setup _ => run_entry name ESetUp setup
  | Aware t =>
      let* _ := run_entry name EPreSetUp (ta_presetup t) in
      let* _ := run_entry name ESetUp (ta_setup t) in
      run_entry name EPostSetUp (ta_postsetup t)
  end.

(** [_SetupModuleThread]; a fresh [threading.Event()] is unset. *)
Definition SetupModuleThread (md : ModuleDefinition) (m : Module) : M unit :=
  let name := runtime_name md in
  let* _ := log (LSettingUp name) in
  let* _ := handle_module_errors name (LSetupCritical name) (setup_logic name m) in
  let* _ := modify (fun s => set_events (<[name := false]> (threading_event_per_module s)) s) in
  CleanUp.

(** The part of [_RunModuleThread] after the abort check: the guarded
    module logic and the final log line. *)
Definition run_body (name : string) (m : Module) : M unit :=
  let* _ := log (LRunning name) in
  let* _ := handle_module_errors name (LRunCritical name) (run_logic name m) in
  log (LFinished name).

(* ------------------------------------------------------------------ *)
(** ** The run phase: one [_RunModuleThread] per module, interleaved *)

(** Program points of [_RunModuleThread]. *)
Inductive RunPc :=
| RWait (remaining : list string)   (* for dependency in wants: event.wait() *)
| RCheckAbort                       (* if self._abort_execution: *)
| RBody                             (* try: ... except ...; 'finished' log *)
| RSignal                           (* self._threading_event_per_module[runtime_name].set() *)
| RCleanUp                          (* self.CleanUp() *)
| RDone                             (* returned *)
| RCrashed.                         (* died on an uncaught KeyError *)

Record RunThread := mkRunThread {
  rt_def : ModuleDefinition;
  rt_module : Module;        (* self._module_pool[runtime_name] *)
  rt_pc : RunPc
}.

Definition set_pc (pc : RunPc) (th : RunThread) : RunThread :=
  mkRunThread (rt_def th) (rt_module th) pc.

(** What a step shows to an observer of the thread. *)
Inductive Label :=
| LWaited (dependency : string)
| LKeyError
| LDepsDone
| LAbort                  (* the abort short-circuit is taken *)
| LProceed                (* the abort check passed *)
| LBegin                  (* module logic (Process or PreProcess) runs *)
| LSetEvent (name : string)
| LCleanUp.

(** One atomic step of a thread, or [None] when it is blocked or finished.
    Module logic runs as one step: it never touches the events.  [CleanUp]
    also runs as one step here, so the race between its two statements is
    not a behaviour of [sys_step]; [cleanup_race] describes it. *)
Definition run_step (th : RunThread) (s : State) : option (Label * RunPc * State) :=
  let name := runtime_name (rt_def th) in
  match rt_pc th with
  | RWait [] => Some (LDepsDone, RCheckAbort, s)
  | RWait (dependency :: rest) =>
      match threading_event_per_module s !! dependency with
      | None => Some (LKeyError, RCrashed, s)
      | Some true => Some (LWaited dependency, RWait rest, s)
      | Some false => None
      end
  | RCheckAbort =>
      if abort_execution s
      then Some (LAbort, RSignal, fst (log (LAborting name) s))
      else Some (LProceed, RBody, s)
  | RBody => Some (LBegin, RSignal, fst (run_body name (rt_module th) s))
  | RSignal =>
      match threading_event_per_module s !! name with
      | None => Some (LKeyError, RCrashed, s)
      | Some _ => Some (LSetEvent name, RCleanUp,
                        set_events (<[name := true]> (threading_event_per_module s)) s)
      end
  | RCleanUp => Some (LCleanUp, RDone, fst (CleanUp s))
  | RDone | RCrashed => None
  end.

Definition Config := (State * list RunThread)%type.

(** Any runnable thread may take the next step. *)
Inductive sys_step : Config -> nat * Label -> Config -> Prop :=
| SysStep s ths i th l pc' s' :
    ths !! i = Some th ->
    run_step th s = Some (l, pc', s') ->
    sys_step (s, ths) (i, l) (s', <[i := set_pc pc' th]> ths).

Inductive reachable (c0 : Config) : Config -> Prop :=
| reach_refl : reachable c0 c0
| reach_step c i l c' : reachable c0 c -> sys_step c (i, l) c' -> reachable c0 c'.

(** [RunModules]: one thread per recipe module, all at the dependency wait. *)
Definition launch (mods : list (ModuleDefinition * Module)) : list RunThread :=
  map (fun '(md, m) => mkRunThread md m (RWait (md_wants md))) mods.

(** Running a given schedule of thread indices (for concrete runs). *)
Fixpoint run_schedule (sched : list nat) (c : Config) : option Config :=
  match sched with
  | [] => Some c
  | i :: rest =>
      match snd c !! i with
      | None => None
      | Some th =>
          match run_step th (fst c) with
          | None => None
          | Some (l, pc', s') => run_schedule rest (s', <[i := set_pc pc' th]> (snd c))
          end
      end
  end.

(* ------------------------------------------------------------------ *)
(** ** Preflights *)

Record Preflight := mkPreflight {
  pf_runtime_name : string;
  pf_setup : Behaviour;
  pf_process : Behaviour
}.

(** [RunPreflights] *)
Fixpoint RunPreflights (preflights : list Preflight) : M unit :=
  match preflights with
  | [] => ret tt
  | p :: rest =>
      let* _ := try_finally
                  (let* _ := run_entry (pf_runtime_name p) ESetUp (pf_setup p) in
                   run_entry (pf_runtime_name p) EProcess (pf_process p))
                  (CheckErrors true) in
      RunPreflights rest
  end.

(* ------------------------------------------------------------------ *)
(** ** Every operation on the state *)

Inductive Op :=
| OpAddToCache (name value : string)
| OpGetFromCache (name default_value : string)
| OpStoreContainer (c : Container)
| OpGetContainers (container_type : string) (pop : bool)
| OpRegisterStreamingCallback (cb : Callback) (container_type : string)
| OpStreamContainer (c : Container)
| OpAddError (e : ErrorRecord)
| OpCleanUp
| OpCheckErrors (is_global : bool)
| OpSetupModuleThread (md : ModuleDefinition) (m : Module)
| OpRunStep (th : RunThread)
| OpRunPreflights (preflights : list Preflight).

Definition exec_op (op : Op) (s : State) : State :=
  match op with
  | OpAddToCache k v => fst (AddToCache k v s)
  | OpGetFromCache k d => fst (GetFromCache k d s)
  | OpStoreContainer c => fst (StoreContainer c s)
  | OpGetContainers t pop => fst (GetContainers t pop s)
  | OpRegisterStreamingCallback cb t => fst (RegisterStreamingCallback cb t s)
  | OpStreamContainer c => fst (StreamContainer c s)
  | OpAddError e => fst (AddError e s)
  | OpCleanUp => fst (CleanUp s)
  | OpCheckErrors g => fst (CheckErrors g s)
  | OpSetupModuleThread md m => fst (SetupModuleThread md m s)
  | OpRunStep th =>
      match run_step th s with
      | Some (_, _, s') => s'
      | None => s
      end
  | OpRunPreflights pfs => fst (RunPreflights pfs s)
  end.

(* ================================================================== *)
(** * Frame lemmas: what a computation leaves in place *)

Section Preserves.
Variable R : State -> State -> Prop.
Hypothesis R_refl : forall s, R s s.
Hypothesis R_trans : forall s1 s2 s3, R s1 s2 -> R s2 s3 -> R s1 s3.

Definition preserves {A} (m : M A) : Prop := forall s, R s (fst (m s)).

Lemma pres_ret {A} (a : A) : preserves (ret a).
Proof. intros s. apply R_refl. Qed.

Lemma pres_raise {A} (e : Exc) : preserves (A := A) (raise e).
Proof. intros s. apply R_refl. Qed.

Lemma pres_gets {A} (f : State -> A) : preserves (gets f).
Proof. intros s. apply R_refl. Qed.

Lemma pres_modify f : (forall s, R s (f s)) -> preserves (modify f).
Proof. intros H s. apply H. Qed.

Lemma pres_bind {A B} (m : M A) (k : A -> M B) :
  preserves m -> (forall a, preserves (k a)) -> preserves (bind m k).
Proof.
  intros Hm Hk s. specialize (Hm s). unfold bind.
  destruct (m s) as [s' [e|a]]; simpl in *; [exact Hm|].
  eapply R_trans; [exact Hm | apply Hk].
Qed.

Lemma pres_try_except {A} (m : M A) h :
  preserves m -> (forall e, preserves (h e)) -> preserves (try_except m h).
Proof.
  intros Hm Hh s. specialize (Hm s). unfold try_except.
  destruct (m s) as [s' [e|a]]; simpl in *; [|exact Hm].
  eapply R_trans; [exact Hm | apply Hh].
Qed.

Lemma pres_try_finally {A} (m : M A) fin :
  preserves m -> preserves fin -> preserves (try_finally m fin).
Proof.
  intros Hm Hf s. specialize (Hm s). unfold try_finally.
  destruct (m s) as [s1 r]. specialize (Hf s1).
  destruct (fin s1) as [s2 [e|u]]; simpl in *; eapply R_trans; eauto.
Qed.

Lemma pres_mapM_ {A} (f : A -> M unit) (l : list A) :
  (forall x, preserves (f x)) -> preserves (mapM_ f l).
Proof.
  intros Hf. induction l as [|x l IH]; simpl.
  - apply pres_ret.
  - apply pres_bind; [apply Hf | intros _; exact IH].
Qed.

Hypothesis pres_emit : forall o, preserves (emit o).

Lemma pres_log l : preserves (log l).
Proof. apply pres_emit. Qed.

Lemma pres_log_errors i es crit : preserves (log_errors i es crit).
Proof.
  revert i crit. induction es as [|e es IH]; intros i crit; simpl.
  - apply pres_ret.
  - apply pres_bind; [apply pres_log|intros _].
    apply pres_bind; [|intros _; apply IH].
    destruct (String.eqb _ _); [apply pres_ret|apply pres_mapM_; intros; apply pres_log].
Qed.

Lemma pres_CheckErrors g : preserves (CheckErrors g).
Proof.
  unfold CheckErrors. apply pres_bind; [apply pres_gets|intros objs].
  apply pres_bind; [destruct objs; [apply pres_ret|apply pres_log]|intros _].
  apply pres_bind; [apply pres_log_errors|intros crit].
  apply pres_bind.
  - destruct (existsb _ _); [apply pres_bind; [apply pres_log|intros _; apply pres_log]|apply pres_ret].
  - intros _. destruct crit; [apply pres_raise|apply pres_ret].
Qed.

Hypothesis pres_StoreContainer : forall c, preserves (StoreContainer c).
Hypothesis pres_GetContainers : forall t pop, preserves (GetContainers t pop).
Hypothesis pres_AddToCache : forall k v, preserves (AddToCache k v).
Hypothesis pres_Register : forall cb t, preserves (RegisterStreamingCallback cb t).
Hypothesis pres_AddError : forall e, preserves (AddError e).

Lemma pres_call_callback cb c : preserves (call_callback cb c).
Proof.
  unfold call_callback. apply pres_bind; [apply pres_emit|intros _].
  apply pres_bind; [apply pres_mapM_; intros []; simpl; auto|intros _].
  destruct (cr_raises _); [apply pres_raise|apply pres_ret].
Qed.

Lemma pres_stream_loop fuel c i : preserves (stream_loop fuel c i).
Proof.
  revert i. induction fuel as [|fuel IH]; intros i s; simpl; [apply R_refl|].
  destruct (_ !! i) as [cb|]; [|apply R_refl].
  apply pres_bind; [apply pres_call_callback|intros _; apply IH].
Qed.

Lemma pres_StreamContainer c : preserves (StreamContainer c).
Proof. intros s. unfold StreamContainer. apply pres_stream_loop. Qed.

Lemma pres_run_action a : preserves (run_action a).
Proof. destruct a; simpl; auto using pres_StreamContainer. Qed.

Lemma pres_run_entry name entry b : preserves (run_entry name entry b).
Proof.
  unfold run_entry. apply pres_bind; [apply pres_emit|intros _].
  apply pres_bind; [apply pres_mapM_, pres_run_action|intros _].
  destruct (b_outcome b).
  - apply pres_ret.
  - unfold ModuleError. apply pres_bind; [apply pres_AddError|intros _; apply pres_raise].
  - apply pres_raise.
Qed.

Lemma pres_submit_all name t cs : preserves (submit_all name t cs).
Proof.
  induction cs as [|c cs IH]; simpl; [apply pres_ret|].
  apply pres_bind; [|intros f; apply pres_bind; [exact IH|intros; apply pres_ret]].
  intros s. unfold run_unit. pose proof (pres_run_entry name (EProcessOne c) (ta_process t c) s) as H.
  destruct (run_entry _ _ _ s) as [s' [e|u]]; exact H.
Qed.

Lemma pres_fan_out name t : preserves (fan_out name t).
Proof.
  unfold fan_out.
  apply pres_bind; [apply pres_run_entry|intros _].
  apply pres_bind; [apply pres_GetContainers|intros cs0].
  apply pres_bind; [apply pres_log|intros _].
  apply pres_bind; [destruct (_ <=? _)%Z; [apply pres_raise|apply pres_ret]|intros _].
  apply pres_bind; [apply pres_GetContainers|intros cs].
  apply pres_bind; [apply pres_submit_all|intros futures].
  apply pres_bind; [apply pres_run_entry|intros _].
  apply pres_bind; [destruct (first_exception futures); [apply pres_raise|apply pres_ret]|intros _].
  destruct (ta_keep t); [apply pres_ret|].
  apply pres_bind; [apply pres_GetContainers|intros; apply pres_ret].
Qed.

Lemma pres_handle name crit body :
  preserves body -> preserves (handle_module_errors name crit body).
Proof.
  intros Hb. apply pres_try_except; [exact Hb|intros []].
  - apply pres_log.
  - apply pres_log.
  - apply pres_bind; [apply pres_log|intros _; apply pres_AddError].
Qed.

Lemma pres_run_body name m : preserves (run_body name m).
Proof.
  unfold run_body. apply pres_bind; [apply pres_log|intros _].
  apply pres_bind; [apply pres_handle|intros _; apply pres_log].
  destruct m; simpl; [apply pres_run_entry|apply pres_fan_out].
Qed.

Lemma pres_setup_logic name m : preserves (setup_logic name m).
Proof.
  destruct m; simpl; [apply pres_run_entry|].
  apply pres_bind; [apply pres_run_entry|intros _].
  apply pres_bind; [apply pres_run_entry|intros _; apply pres_run_entry].
Qed.

Lemma pres_RunPreflights pfs : preserves (RunPreflights pfs).
Proof.
  induction pfs as [|p pfs IH]; simpl; [apply pres_ret|].
  apply pres_bind; [|intros _; exact IH].
  apply pres_try_finally; [|apply pres_CheckErrors].
  apply pres_bind; [apply pres_run_entry|intros _; apply pres_run_entry].
Qed.
End Preserves.

(* ================================================================== *)
(** * The error ledger *)

Definition abort_kept (s s' : State) : Prop :=
  abort_execution s = true -> abort_execution s' = true.

Lemma abort_kept_refl s : abort_kept s s.
Proof. unfold abort_kept; auto. Qed.

Lemma abort_kept_trans s1 s2 s3 : abort_kept s1 s2 -> abort_kept s2 s3 -> abort_kept s1 s3.
Proof. unfold abort_kept; auto. Qed.

Ltac base_pres :=
  intros; intros s; unfold preserves; simpl; first [reflexivity | tauto | idtac].

Lemma abort_kept_emit o : preserves abort_kept (emit o).
Proof. intros s; unfold abort_kept; simpl; auto. Qed.

Lemma abort_kept_AddError e : preserves abort_kept (AddError e).
Proof. intros s; unfold abort_kept; simpl. destruct (err_critical e); simpl; auto. Qed.

Lemma abort_kept_all :
  (forall c, preserves abort_kept (StoreContainer c)) /\
  (forall t pop, preserves abort_kept (GetContainers t pop)) /\
  (forall k v, preserves abort_kept (AddToCache k v)) /\
  (forall cb t, preserves abort_kept (RegisterStreamingCallback cb t)) /\
  preserves abort_kept CleanUp.
Proof.
  repeat split; intros; intros s; unfold abort_kept; simpl; auto.
  destruct pop; simpl; auto.
Qed.

Lemma abort_kept_run_body name m : preserves abort_kept (run_body name m).
Proof.
  destruct abort_kept_all as (H1 & H2 & H3 & H4 & _).
  apply pres_run_body.
  all: first [exact abort_kept_refl | exact abort_kept_trans | exact abort_kept_emit
             | exact abort_kept_AddError | assumption].
Qed.

(** Field-wise equality of everything but the log. *)
Definition same_ledger (s s' : State) : Prop :=
  cache s' = cache s /\ store s' = store s /\ errors s' = errors s /\
  global_errors s' = global_errors s /\
  threading_event_per_module s' = threading_event_per_module s /\
  streaming_callbacks s' = streaming_callbacks s /\
  abort_execution s' = abort_execution s.

Lemma same_ledger_refl s : same_ledger s s.
Proof. repeat split. Qed.

Lemma same_ledger_trans s1 s2 s3 : same_ledger s1 s2 -> same_ledger s2 s3 -> same_ledger s1 s3.
Proof. unfold same_ledger; intuition congruence. Qed.

Lemma same_ledger_emit o : preserves same_ledger (emit o).
Proof. intros s; repeat split. Qed.

(** The log lines of the [enumerate] loop of [CheckErrors]. *)
Fixpoint error_lines (index : nat) (es : list ErrorRecord) : list Obs :=
  match es with
  | [] => []
  | e :: es' =>
      OLog (LErrorLine index (err_name e) (err_message e))
      :: (if String.eqb (err_stacktrace e) "" then []
          else map (fun line => OLog (LTraceLine line)) (split_lines (err_stacktrace e)))
      ++ error_lines (S index) es'
  end.

Lemma mapM_log_trace_eq (lines : list string) s :
  mapM_ (fun line => log (LTraceLine line)) lines s =
  (set_obs (obs s ++ map (fun line => OLog (LTraceLine line)) lines) s, inr tt).
Proof.
  revert s. induction lines as [|l lines IH]; intros s; simpl.
  - rewrite app_nil_r. by destruct s.
  - unfold bind at 1. simpl. rewrite IH. simpl. by rewrite <- app_assoc.
Qed.

Lemma log_errors_eq i es crit s :
  log_errors i es crit s =
  (set_obs (obs s ++ error_lines i es) s, inr (crit || existsb err_critical es)).
Proof.
  revert i crit s. induction es as [|e es IH]; intros i crit s; simpl.
  - rewrite app_nil_r, orb_false_r. by destruct s.
  - unfold bind at 1. simpl. unfold bind at 1.
    destruct (String.eqb (err_stacktrace e) "").
    + simpl. rewrite IH. simpl. rewrite orb_assoc, <- app_assoc. reflexivity.
    + rewrite mapM_log_trace_eq. simpl. rewrite IH. simpl.
      rewrite orb_assoc. repeat rewrite <- app_assoc. reflexivity.
Qed.

Definition check_lines (objs : list ErrorRecord) : list Obs :=
  match objs with [] => [] | _ => [OLog LErrorsHeader] end
  ++ error_lines 1 objs
  ++ (if existsb err_unexpected objs
      then [OLog LUnexpected; OLog (LIssueUrl NEW_ISSUE_URL)] else []).

Definition checked (is_global : bool) (s : State) : list ErrorRecord :=
  if is_global then global_errors s else errors s.

Lemma CheckErrors_eq g s :
  CheckErrors g s =
  (set_obs (obs s ++ check_lines (checked g s)) s,
   if existsb err_critical (checked g s)
   then inl (ExCritical "Critical error found. Aborting.") else inr tt).
Proof.
  unfold CheckErrors, check_lines, checked. unfold bind at 1, gets.
  generalize (if g then global_errors s else errors s). intros objs.
  unfold bind at 1.
  assert (Hhd : (match objs with [] => ret tt | _ => log LErrorsHeader end) s =
                (set_obs (obs s ++ match objs with [] => [] | _ => [OLog LErrorsHeader] end) s, inr tt)).
  { destruct objs; simpl; [rewrite app_nil_r; by destruct s | reflexivity]. }
  rewrite Hhd. unfold bind at 1. rewrite log_errors_eq. simpl.
  unfold bind at 1.
  destruct (existsb err_unexpected objs); simpl.
  - destruct (existsb err_critical objs); simpl; repeat rewrite <- app_assoc; reflexivity.
  - destruct (existsb err_critical objs); simpl; rewrite !app_nil_r, <- app_assoc; reflexivity.
Qed.

Lemma error_lines_elem_of k objs i e :
  objs !! i = Some e ->
  OLog (LErrorLine (k + i) (err_name e) (err_message e)) ∈ error_lines k objs /\
  (err_stacktrace e <> "" -> forall line, line ∈ split_lines (err_stacktrace e) ->
     OLog (LTraceLine line) ∈ error_lines k objs).
Proof.
  revert k i. induction objs as [|e' objs IH]; intros k i Hi; [discriminate|].
  destruct i as [|i]; simpl in Hi.
  - injection Hi as <-. rewrite Nat.add_0_r. simpl. split.
    + left.
    + intros Hne line Hl. right. apply elem_of_app. left.
      apply String.eqb_neq in Hne. rewrite Hne.
      apply list_elem_of_fmap. eauto.
  - destruct (IH (S k) i Hi) as [H1 H2]. simpl.
    replace (k + S i) with (S k + i) by lia. split.
    + right. apply elem_of_app. right. exact H1.
    + intros Hne line Hl. right. apply elem_of_app. right. auto.
Qed.

Lemma error_lines_no_prompt k objs :
  OLog LUnexpected ∉ error_lines k objs.
Proof.
  revert k. induction objs as [|e objs IH]; intros k; simpl.
  - apply not_elem_of_nil.
  - rewrite elem_of_cons, elem_of_app. intros [H|[H|H]]; [discriminate| |exact (IH _ H)].
    destruct (String.eqb _ _); [apply not_elem_of_nil in H; exact H|].
    apply list_elem_of_fmap in H. destruct H as (? & ? & _). discriminate.
Qed.

Ltac abort_kept_tac :=
  first [exact abort_kept_refl | exact abort_kept_trans | exact abort_kept_emit
        | exact abort_kept_AddError | assumption].

Lemma abort_kept_SetupModuleThread md m : preserves abort_kept (SetupModuleThread md m).
Proof.
  destruct abort_kept_all as (H1 & H2 & H3 & H4 & H5).
  unfold SetupModuleThread.
  apply pres_bind; [abort_kept_tac|apply abort_kept_emit|intros _].
  apply pres_bind; [abort_kept_tac| |intros _].
  { apply pres_handle; try abort_kept_tac.
    apply pres_setup_logic; abort_kept_tac. }
  apply pres_bind; [abort_kept_tac| |intros _; exact H5].
  intros s; unfold abort_kept; simpl; auto.
Qed.

Lemma abort_kept_RunPreflights pfs : preserves abort_kept (RunPreflights pfs).
Proof.
  destruct abort_kept_all as (H1 & H2 & H3 & H4 & H5).
  apply pres_RunPreflights; first [exact abort_kept_refl | exact abort_kept_trans | exact abort_kept_emit
             | exact abort_kept_AddError | assumption].
Qed.

Lemma abort_kept_run_step th s l pc' s' :
  run_step th s = Some (l, pc', s') -> abort_kept s s'.
Proof.
  unfold run_step. intros H.
  destruct (rt_pc th) as [[|d ds]| | | | | |]; try discriminate.
  - injection H as <- <- <-. apply abort_kept_refl.
  - destruct (threading_event_per_module s !! d) as [[]|]; try discriminate;
      injection H as <- <- <-; apply abort_kept_refl.
  - destruct (abort_execution s) eqn:E; injection H as <- <- <-;
      [apply abort_kept_emit|apply abort_kept_refl].
  - injection H as <- <- <-. apply abort_kept_run_body.
  - destruct (threading_event_per_module s !! _); injection H as <- <- <-;
      [unfold abort_kept; simpl; auto|apply abort_kept_refl].
  - injection H as <- <- <-. apply abort_kept_all.
Qed.

(* ================================================================== *)
(** * Claims about the error ledger *)

(** C5: [CheckErrors] raises the fatal [CriticalError] exactly when a record
    of the checked list is critical (a list of non-critical records does not
    raise); whether or not it raises, the log it leaves holds, for every
    record, its index, origin and message and every line of its stack trace;
    the prompt to file a report is logged exactly when a record is
    unexpected. *)
Theorem check_errors_raises_iff_critical (is_global : bool) (s : State) :
  let objs := checked is_global s in
  let s' := fst (CheckErrors is_global s) in
  let r := snd (CheckErrors is_global s) in
  (r = inl (ExCritical "Critical error found. Aborting.") <->
     existsb err_critical objs = true) /\
  (r = inr tt <-> Forall (fun e => err_critical e = false) objs) /\
  exists new, obs s' = obs s ++ new /\
    (forall i e, objs !! i = Some e ->
       OLog (LErrorLine (S i) (err_name e) (err_message e)) ∈ new /\
       (err_stacktrace e <> "" -> forall line, line ∈ split_lines (err_stacktrace e) ->
          OLog (LTraceLine line) ∈ new)) /\
    (existsb err_unexpected objs = true <->
       OLog LUnexpected ∈ new /\ OLog (LIssueUrl NEW_ISSUE_URL) ∈ new).
Proof.
  intros objs s' r. subst s' r. rewrite CheckErrors_eq. simpl. fold objs.
  split; [|split].
  - destruct (existsb err_critical objs); split; intros H; congruence.
  - rewrite Forall_forall.
    destruct (existsb err_critical objs) eqn:E.
    + apply existsb_exists in E. destruct E as (e & He & Hc).
      split; intros H; [discriminate|].
      exfalso. specialize (H e). apply list_elem_of_In in He. rewrite H in Hc; auto. discriminate.
    + split; intros _; [|reflexivity].
      intros e He. apply not_true_iff_false. intros Hc.
      assert (existsb err_critical objs = true) by (apply existsb_exists; exists e; split; auto;
        apply list_elem_of_In; exact He). congruence.
  - exists (check_lines objs). split; [reflexivity|]. split.
    + intros i e Hi. unfold check_lines.
      destruct (error_lines_elem_of 1 objs i e Hi) as [H1 H2].
      split.
      * apply elem_of_app; right. apply elem_of_app; left. exact H1.
      * intros Hne line Hl. apply elem_of_app; right. apply elem_of_app; left. auto.
    + unfold check_lines. destruct (existsb err_unexpected objs).
      * split; [|reflexivity]. intros _.
        split; do 2 (apply elem_of_app; right); [left|right; left].
      * split; [discriminate|]. intros [H _]. exfalso.
        rewrite app_nil_r in H. apply elem_of_app in H. destruct H as [H|H].
        -- destruct objs; simpl in H; [apply not_elem_of_nil in H; exact H|].
           apply list_elem_of_singleton in H. discriminate.
        -- exact (error_lines_no_prompt 1 objs H).
Qed.

(** C6: the abort flag starts false; an [AddError] of a critical record has
    set it when that call returns; and no operation of the state (including
    every step of a run-phase thread) ever resets it. *)
Theorem abort_flag_set_on_record_and_monotone :
  abort_execution init_state = false /\
  (forall (e : ErrorRecord) (s : State),
     err_critical e = true -> abort_execution (fst (AddError e s)) = true) /\
  (forall (op : Op) (s : State),
     abort_execution s = true -> abort_execution (exec_op op s) = true).
Proof.
  destruct abort_kept_all as (H1 & H2 & H3 & H4 & H5).
  split; [reflexivity|split].
  - intros e s Hc. simpl. rewrite Hc. reflexivity.
  - intros op s Hs. destruct op; simpl exec_op.
    + exact (H3 _ _ s Hs).
    + exact Hs.
    + exact (H1 _ s Hs).
    + exact (H2 _ _ s Hs).
    + exact (H4 _ _ s Hs).
    + assert (Hp : preserves abort_kept (StreamContainer c))
        by (apply pres_StreamContainer; abort_kept_tac).
      exact (Hp s Hs).
    + exact (abort_kept_AddError e s Hs).
    + exact (H5 s Hs).
    + assert (Hp : preserves abort_kept (CheckErrors is_global))
        by (apply pres_CheckErrors; abort_kept_tac).
      exact (Hp s Hs).
    + exact (abort_kept_SetupModuleThread md m s Hs).
    + destruct (run_step th s) as [[[l pc'] s']|] eqn:E; [|exact Hs].
      exact (abort_kept_run_step th s l pc' s' E Hs).
    + exact (abort_kept_RunPreflights preflights s Hs).
Qed.

(** C10: [CheckErrors] changes nothing but the log: the round and global
    error lists, the store, the cache, the events, the callbacks and the
    abort flag are the same afterwards, also when it raises; so a second
    [CheckErrors] on the same scope ends the same way. *)
Theorem check_errors_leaves_state (is_global : bool) (s : State) :
  same_ledger s (fst (CheckErrors is_global s)) /\
  snd (CheckErrors is_global (fst (CheckErrors is_global s))) =
  snd (CheckErrors is_global s).
Proof.
  rewrite !CheckErrors_eq. simpl. split; [repeat split|].
  unfold checked. simpl. reflexivity.
Qed.

(* ================================================================== *)
(** * Container store and streaming *)

Lemma StoreContainer_store c s :
  store (fst (StoreContainer c s)) =
  <[c_type c := default [] (store s !! c_type c) ++ [c]]> (store s).
Proof. reflexivity. Qed.

Lemma store_two_read (T : string) (c1 c2 : Container) (s : State) :
  c_type c1 = T -> c_type c2 = T ->
  default [] (store (fst ((let* _ := StoreContainer c1 in StoreContainer c2) s)) !! T) =
  default [] (store s !! T) ++ [c1; c2].
Proof.
  intros H1 H2. unfold bind at 1. simpl.
  rewrite H1, H2, lookup_insert_eq, lookup_insert_eq. simpl.
  rewrite <- app_assoc. reflexivity.
Qed.

(** C7: with no container of tag [T] stored yet, storing [c1] then [c2]
    (any two, equal or not) and reading [T] gives [[c1; c2]]; reading with
    [pop] gives [[c1; c2]] too and leaves [T] empty for the next read. *)
Theorem store_fifo_and_pop (T : string) (c1 c2 : Container) (s : State) :
  c_type c1 = T -> c_type c2 = T -> default [] (store s !! T) = [] ->
  let s2 := fst ((let* _ := StoreContainer c1 in StoreContainer c2) s) in
  snd (GetContainers T false s2) = inr [c1; c2] /\
  snd (GetContainers T true s2) = inr [c1; c2] /\
  snd (GetContainers T false (fst (GetContainers T true s2))) = inr [].
Proof.
  intros H1 H2 Hempty s2.
  assert (Hs2 : default [] (store s2 !! T) = [c1; c2]).
  { subst s2. rewrite store_two_read by assumption. rewrite Hempty. reflexivity. }
  clearbody s2. unfold GetContainers. simpl. rewrite Hs2.
  split; [reflexivity|split; [reflexivity|]].
  rewrite lookup_insert_eq. reflexivity.
Qed.

Lemma store_fifo_and_pop_witness :
  let c1 := mkContainer "FSPath" "fspath" 1 in
  let c2 := mkContainer "FSPath" "fspath" 2 in
  c_type c1 = "fspath" /\ c_type c2 = "fspath" /\
  default [] (store init_state !! "fspath") = [] /\
  let s2 := fst ((let* _ := StoreContainer c1 in StoreContainer c2) init_state) in
  snd (GetContainers "fspath" false s2) = inr [c1; c2] /\
  snd (GetContainers "fspath" true s2) = inr [c1; c2] /\
  snd (GetContainers "fspath" false (fst (GetContainers "fspath" true s2))) = inr [].
Proof.
  intros c1 c2. split; [reflexivity|split; [reflexivity|split; [reflexivity|]]].
  apply (store_fifo_and_pop "fspath" c1 c2 init_state); reflexivity.
Defined.


(** The callbacks registered for a class. *)
Definition cbs_of (s : State) (cls : string) : list Callback :=
  default [] (streaming_callbacks s !! cls).


Definition is_store (a : CbAction) : bool :=
  match a with CStore _ => true | _ => false end.

(** The remaining iterations the loop at position [i] can take. *)
Definition need (s : State) (c : Container) (i : nat) : nat :=
  S (sum_list_with (dispatch_size c) (drop i (cbs_of s (c_class c)))).




Lemma registered_app cls l1 l2 : registered cls (l1 ++ l2) = registered cls l1 ++ registered cls l2.
Proof.
  induction l1 as [|a l1 IH]; simpl; [reflexivity|].
  destruct a; try exact IH. destruct (String.eqb cls0 cls); simpl; rewrite IH; reflexivity.
Qed.

Lemma run_cb_action_spec a s :
  let s' := fst (run_cb_action a s) in
  snd (run_cb_action a s) = inr tt /\
  obs s' = obs s /\
  (forall cls, cbs_of s' cls = cbs_of s cls ++ registered cls [a]) /\
  (is_store a = false -> store s' = store s) /\
  (forall o, run_cb_action a (set_obs o s) = (set_obs o s', inr tt)).
Proof.
  destruct a as [c|e|k v|cb cls]; simpl.
  - repeat split; try reflexivity; try discriminate. intros. rewrite app_nil_r. reflexivity.
  - destruct (err_critical e) eqn:Hc; repeat split; try reflexivity;
      intros; try (rewrite app_nil_r; reflexivity);
      unfold AddError, modify; simpl; rewrite Hc; reflexivity.
  - repeat split; try reflexivity; try discriminate. intros. rewrite app_nil_r. reflexivity.
  - repeat split; try reflexivity.
    intros cls'. unfold cbs_of. simpl.
    destruct (String.eqb_spec cls cls') as [->|Hne].
    + rewrite lookup_insert_eq. reflexivity.
    + rewrite lookup_insert_ne by exact Hne. rewrite app_nil_r. reflexivity.
Qed.

Lemma mapM_cb_cons a acts s :
  mapM_ run_cb_action (a :: acts) s = mapM_ run_cb_action acts (fst (run_cb_action a s)).
Proof.
  simpl. unfold bind. destruct (run_cb_action_spec a s) as [Hr _].
  destruct (run_cb_action a s) as [s1 r]. simpl in Hr. subst r. reflexivity.
Qed.

Lemma cb_actions_spec acts s :
  let s' := fst (mapM_ run_cb_action acts s) in
  snd (mapM_ run_cb_action acts s) = inr tt /\
  obs s' = obs s /\
  (forall cls, cbs_of s' cls = cbs_of s cls ++ registered cls acts) /\
  (forallb (fun a => negb (is_store a)) acts = true -> store s' = store s) /\
  (forall o, mapM_ run_cb_action acts (set_obs o s) = (set_obs o s', inr tt)).
Proof.
  revert s. induction acts as [|a acts IH]; intros s.
  - simpl. repeat split; try reflexivity. intros cls. rewrite app_nil_r. reflexivity.
  - cbv zeta. rewrite !mapM_cb_cons.
    destruct (run_cb_action_spec a s) as (_ & Ho & Hc & Hst & Hset).
    destruct (IH (fst (run_cb_action a s))) as (IH1 & IHo & IHc & IHst & IHset).
    repeat split.
    + exact IH1.
    + rewrite IHo. exact Ho.
    + intros cls. rewrite IHc, Hc, <- app_assoc. f_equal.
      change (a :: acts) with ([a] ++ acts). rewrite registered_app. reflexivity.
    + simpl. intros Hf. apply andb_prop in Hf as [Ha Hf].
      rewrite IHst by exact Hf. apply Hst. destruct (is_store a); [discriminate|reflexivity].
    + intros o. rewrite mapM_cb_cons, Hset. apply IHset.
Qed.


Lemma call_callback_spec cb c s :
  let s' := fst (call_callback cb c s) in
  snd (call_callback cb c s) =
    match cr_raises (cb_code cb c) with None => inr tt | Some e => inl e end /\
  s' = set_obs (obs s ++ [OCallback (cb_id cb) c])
               (fst (mapM_ run_cb_action (cr_actions (cb_code cb c)) s)) /\
  obs s' = obs s ++ [OCallback (cb_id cb) c] /\
  (forall cls, cbs_of s' cls = cbs_of s cls ++ registered cls (cr_actions (cb_code cb c))).
Proof.
  destruct (cb_actions_spec (cr_actions (cb_code cb c)) s) as (_ & _ & Hc & _ & Hset).
  assert (Heq : call_callback cb c s =
    (set_obs (obs s ++ [OCallback (cb_id cb) c])
             (fst (mapM_ run_cb_action (cr_actions (cb_code cb c)) s)),
     match cr_raises (cb_code cb c) with None => inr tt | Some e => inl e end)).
  { unfold call_callback, bind at 1, emit, modify.
    change (set_obs (obs s ++ [OCallback (cb_id cb) c]) s) with
      (set_obs (obs s ++ [OCallback (cb_id cb) c]) s).
    unfold bind. rewrite Hset. destruct (cr_raises (cb_code cb c)); reflexivity. }
  rewrite Heq. simpl. repeat split; try reflexivity. intros cls. apply Hc.
Qed.

Lemma dispatch_size_eq c cb :
  dispatch_size c cb =
  S (sum_list_with (dispatch_size c) (registered (c_class c) (cr_actions (cb_code cb c)))).
Proof.
  destruct cb as [i code]. simpl. destruct (code c) as [acts e]. simpl. f_equal.
  induction acts as [|a acts IH]; [reflexivity|].
  destruct a; simpl; try exact IH.
  destruct (String.eqb cls (c_class c)); simpl; rewrite IH; reflexivity.
Qed.

Lemma need_step s c i cb :
  cbs_of s (c_class c) !! i = Some cb ->
  S (need (fst (call_callback cb c s)) c (S i)) = need s c i.
Proof.
  intros Hi. unfold need.
  destruct (call_callback_spec cb c s) as (_ & _ & _ & Hc). rewrite Hc.
  pose proof (lookup_lt_Some _ _ _ Hi) as Hlt.
  rewrite drop_app_le by lia. rewrite (drop_S _ _ _ Hi).
  rewrite sum_list_with_app. simpl. rewrite (dispatch_size_eq c cb). lia.
Qed.

(** The fuel [StreamContainer] gives is enough: one more iteration of
    fuel changes nothing. *)
Lemma stream_loop_enough_fuel c n : forall i s,
  need s c i <= n -> stream_loop (S n) c i s = stream_loop n c i s.
Proof.
  induction n as [|n IH]; intros i s Hn; [unfold need in Hn; lia|].
  change (stream_loop (S (S n)) c i s) with
    (match cbs_of s (c_class c) !! i with
     | None => (s, inr tt)
     | Some callback => bind (call_callback callback c) (fun _ => stream_loop (S n) c (S i)) s
     end).
  change (stream_loop (S n) c i s) with
    (match cbs_of s (c_class c) !! i with
     | None => (s, inr tt)
     | Some callback => bind (call_callback callback c) (fun _ => stream_loop n c (S i)) s
     end).
  destruct (cbs_of s (c_class c) !! i) as [cb|] eqn:Hi; [|reflexivity].
  pose proof (need_step s c i cb Hi) as Hstep.
  unfold bind. destruct (call_callback cb c s) as [s1 [e|[]]] eqn:E; [reflexivity|].
  simpl in Hstep. apply IH. lia.
Qed.




(** The state after the quiet callbacks [pre] have run on [c]. *)
Definition after_quiet (c : Container) (pre : list Callback) (s : State) : State :=
  set_obs (obs s ++ map (fun cb => OCallback (cb_id cb) c) pre)
          (fst (mapM_ run_cb_action (flat_map (fun cb => cr_actions (cb_code cb c)) pre) s)).







Lemma after_quiet_obs c pre s :
  obs (after_quiet c pre s) = obs s ++ map (fun cb => OCallback (cb_id cb) c) pre.
Proof. reflexivity. Qed.




(* ================================================================== *)
(** * The run phase *)

Definition events_same (s s' : State) : Prop :=
  threading_event_per_module s' = threading_event_per_module s.

Ltac events_same_tac :=
  first [ intros s; reflexivity
        | intros ? s; reflexivity
        | intros ? ? s; reflexivity
        | intros e s; unfold events_same; simpl; destruct (err_critical e); reflexivity
        | intros ? [] s; reflexivity
        | intros ? ? ? ?; unfold events_same; congruence ].

(** Module logic never touches the completion events. *)
Lemma events_same_run_body name m : preserves events_same (run_body name m).
Proof. apply pres_run_body; events_same_tac. Qed.

Definition ev_le (e1 e2 : gmap string bool) : Prop :=
  forall d, e1 !! d = Some true -> e2 !! d = Some true.

Lemma run_step_events th s l pc' s' :
  run_step th s = Some (l, pc', s') ->
  ev_le (threading_event_per_module s) (threading_event_per_module s').
Proof.
  unfold run_step. intros H d Hd.
  destruct (rt_pc th) as [[|d' ds]| | | | | |]; try discriminate.
  - injection H as <- <- <-. exact Hd.
  - destruct (threading_event_per_module s !! d') as [[]|]; try discriminate;
      injection H as <- <- <-; exact Hd.
  - destruct (abort_execution s); injection H as <- <- <-; exact Hd.
  - injection H as <- <- <-. rewrite (events_same_run_body _ _ s). exact Hd.
  - destruct (threading_event_per_module s !! _); injection H as <- <- <-; [|exact Hd].
    simpl. destruct (decide (runtime_name (rt_def th) = d)) as [<-|Hne].
    + apply lookup_insert_eq.
    + rewrite lookup_insert_ne by exact Hne. exact Hd.
  - injection H as <- <- <-. exact Hd.
Qed.

(** Where a thread is, which of its dependencies' events are set. *)
Definition thread_inv (ev : gmap string bool) (th : RunThread) : Prop :=
  match rt_pc th with
  | RWait ds => exists pre, md_wants (rt_def th) = pre ++ ds /\
                            forall d, d ∈ pre -> ev !! d = Some true
  | RCrashed => True
  | _ => forall d, d ∈ md_wants (rt_def th) -> ev !! d = Some true
  end.

Lemma thread_inv_mono ev ev' th : ev_le ev ev' -> thread_inv ev th -> thread_inv ev' th.
Proof.
  unfold thread_inv. intros Hle H. destruct (rt_pc th); auto.
  destruct H as (pre & Hw & Hpre). exists pre. auto.
Qed.

Lemma thread_inv_step th s l pc' s' :
  thread_inv (threading_event_per_module s) th ->
  run_step th s = Some (l, pc', s') ->
  thread_inv (threading_event_per_module s') (set_pc pc' th).
Proof.
  intros Hinv Hstep.
  pose proof (run_step_events _ _ _ _ _ Hstep) as Hle.
  apply (thread_inv_mono _ _ _ Hle) in Hinv.
  unfold run_step in Hstep. unfold thread_inv in *. simpl.
  destruct (rt_pc th) as [[|d ds]| | | | | |]; try discriminate.
  - injection Hstep as <- <- <-. destruct Hinv as (pre & Hw & Hpre).
    rewrite app_nil_r in Hw. subst. exact Hpre.
  - destruct (threading_event_per_module s !! d) as [[]|] eqn:Ed; try discriminate;
      injection Hstep as <- <- <-; [|exact I].
    destruct Hinv as (pre & Hw & Hpre). exists (pre ++ [d]). split.
    + rewrite Hw, <- app_assoc. reflexivity.
    + intros d' Hd'. apply elem_of_app in Hd'. destruct Hd' as [Hd'|Hd']; [auto|].
      apply list_elem_of_singleton in Hd'. subst. exact Ed.
  - destruct (abort_execution s); injection Hstep as <- <- <-; exact Hinv.
  - injection Hstep as <- <- <-. exact Hinv.
  - destruct (threading_event_per_module s !! _); injection Hstep as <- <- <-; [exact Hinv|exact I].
  - injection Hstep as <- <- <-. exact Hinv.
Qed.

Definition sys_inv (c : Config) : Prop :=
  forall i th, c.2 !! i = Some th -> thread_inv (threading_event_per_module c.1) th.

Lemma sys_inv_launch s mods : sys_inv (s, launch mods).
Proof.
  intros i th H. simpl in H. unfold launch in H.
  apply list_lookup_fmap_Some in H. destruct H as ([md m] & -> & _).
  exists []. split; [reflexivity|]. intros d Hd. apply not_elem_of_nil in Hd. contradiction.
Qed.

Lemma sys_inv_step c i l c' : sys_inv c -> sys_step c (i, l) c' -> sys_inv c'.
Proof.
  intros Hinv Hstep. inversion Hstep as [s ths i' th l' pc' s' Hth Hrun]; subst.
  intros j thj Hj. simpl in Hj |- *.
  destruct (decide (i = j)) as [<-|Hne].
  - rewrite list_lookup_insert_eq in Hj by (eapply lookup_lt_Some; eauto).
    injection Hj as <-. eapply thread_inv_step; [|exact Hrun]. exact (Hinv i th Hth).
  - rewrite list_lookup_insert_ne in Hj by exact Hne.
    eapply thread_inv_mono; [eapply run_step_events; exact Hrun|]. exact (Hinv j thj Hj).
Qed.

Lemma sys_inv_reachable c0 c : sys_inv c0 -> reachable c0 c -> sys_inv c.
Proof. intros H0 Hr. induction Hr; eauto using sys_inv_step. Qed.

Lemma run_step_begin th s pc' s' :
  run_step th s = Some (LBegin, pc', s') -> rt_pc th = RBody.
Proof.
  unfold run_step. destruct (rt_pc th) as [[|d ds]| | | | | |]; try discriminate; auto.
  - destruct (threading_event_per_module s !! d) as [[]|]; discriminate.
  - destruct (abort_execution s); discriminate.
  - destruct (threading_event_per_module s !! _); discriminate.
Qed.

(** C1: under any interleaving of the run-phase threads, the step in which
    a thread runs its module logic (Process, or PreProcess and the fan-out)
    happens in a state where the event of every module it wants is set. *)
Theorem begin_after_dependencies (mods : list (ModuleDefinition * Module))
    (s0 s : State) (ths : list RunThread) (i : nat) (th : RunThread) (c' : Config) :
  reachable (s0, launch mods) (s, ths) ->
  ths !! i = Some th ->
  sys_step (s, ths) (i, LBegin) c' ->
  forall d, d ∈ md_wants (rt_def th) -> threading_event_per_module s !! d = Some true.
Proof.
  intros Hr Hth Hstep.
  pose proof (sys_inv_reachable _ _ (sys_inv_launch s0 mods) Hr i th Hth) as Hinv.
  inversion Hstep as [s1 ths1 i1 th1 l1 pc' s' Hth1 Hrun]; subst.
  rewrite Hth in Hth1. injection Hth1 as <-.
  unfold thread_inv in Hinv. rewrite (run_step_begin _ _ _ _ Hrun) in Hinv. exact Hinv.
Qed.

Lemma setup_thread_creates_event md m s :
  threading_event_per_module (fst (SetupModuleThread md m s)) !! runtime_name md = Some false.
Proof.
  unfold SetupModuleThread. unfold bind at 1. simpl. unfold bind at 1.
  destruct (handle_module_errors _ _ _ _) as [s1 r] eqn:E.
  destruct r as [e|u].
  - (* the handler catches every exception *)
    exfalso. unfold handle_module_errors, try_except in E.
    destruct (setup_logic _ _ _) as [s2 [e2|u2]].
    + destruct e2; simpl in E; [discriminate|discriminate|].
      unfold bind in E. simpl in E. discriminate.
    + discriminate.
  - simpl. apply lookup_insert_eq.
Qed.

(** C2: a run-phase thread that finds the abort flag set when its
    dependency wait is over logs the abort notice and goes straight to its
    signal, without running module logic; whatever other threads do in
    between, it then sets its own event (which its setup thread created)
    and calls [CleanUp] before returning, and no later step of it runs
    module logic. The module-logic step, whatever its outcome (normal
    return, declared error, other exception), also always leads to the
    signal, then [CleanUp]. *)
Theorem abort_short_circuit (th : RunThread) (s : State) :
  let name := runtime_name (rt_def th) in
  rt_pc th = RCheckAbort ->
  abort_execution s = true ->
  run_step th s = Some (LAbort, RSignal, fst (log (LAborting name) s)) /\
  (forall m s0, threading_event_per_module (fst (SetupModuleThread (rt_def th) m s0)) !! name
                = Some false) /\
  (forall s1, is_Some (threading_event_per_module s1 !! name) ->
     run_step (set_pc RSignal th) s1 =
     Some (LSetEvent name, RCleanUp,
           set_events (<[name := true]> (threading_event_per_module s1)) s1)) /\
  (forall s2, run_step (set_pc RCleanUp th) s2 = Some (LCleanUp, RDone, fst (CleanUp s2))) /\
  (forall pc s3 l pc' s3', pc = RSignal \/ pc = RCleanUp \/ pc = RDone ->
     run_step (set_pc pc th) s3 = Some (l, pc', s3') ->
     l <> LBegin /\ (pc' = RCleanUp \/ pc' = RDone \/ pc' = RCrashed)) /\
  (forall s4, exists s4', run_step (set_pc RBody th) s4 = Some (LBegin, RSignal, s4')).
Proof.
  intros name Hpc Habort. split; [|split; [|split; [|split; [|split]]]].
  - unfold run_step. rewrite Hpc, Habort. reflexivity.
  - intros m s0. apply setup_thread_creates_event.
  - intros s1 [b Hb]. unfold run_step. simpl. fold name. rewrite Hb. reflexivity.
  - intros s2. reflexivity.
  - intros pc s3 l pc' s3' Hpc' Hrun. unfold run_step in Hrun. simpl in Hrun.
    destruct Hpc' as [ -> | [ -> | -> ] ].
    + destruct (threading_event_per_module s3 !! _); injection Hrun as <- <- <-;
        split; try discriminate; auto.
    + injection Hrun as <- <- <-. split; [discriminate|auto].
    + discriminate.
  - intros s4. eexists. reflexivity.
Qed.

Lemma abort_short_circuit_witness :
  let th := mkRunThread (mkDef "B" None ["A"]) (Plain (mkBehaviour [] OOk) (mkBehaviour [] OOk))
                        RCheckAbort in
  let s := set_abort true init_state in
  rt_pc th = RCheckAbort /\ abort_execution s = true /\
  run_step th s = Some (LAbort, RSignal, fst (log (LAborting (runtime_name (rt_def th))) s)).
Proof.
  intros th s. split; [reflexivity|split; [reflexivity|]].
  exact (proj1 (abort_short_circuit th s eq_refl eq_refl)).
Defined.

Lemma run_schedule_reachable sched c0 c1 c :
  reachable c0 c1 -> run_schedule sched c1 = Some c -> reachable c0 c.
Proof.
  revert c1. induction sched as [|i rest IH]; intros c1 Hr Hs; simpl in Hs.
  - injection Hs as <-. exact Hr.
  - destruct c1 as [s ths]. simpl in Hs.
    destruct (ths !! i) as [th|] eqn:Hth; [|discriminate].
    destruct (run_step th s) as [[[l pc'] s']|] eqn:Hrun; [|discriminate].
    eapply IH; [|exact Hs]. eapply reach_step; [exact Hr|]. econstructor; eauto.
Qed.

(** A two-module recipe: [B] wants [A]; both events exist after setup. *)
Definition nop : Behaviour := mkBehaviour [] OOk.
Definition demo_mods : list (ModuleDefinition * Module) :=
  [(mkDef "A" None [], Plain nop nop); (mkDef "B" None ["A"], Plain nop nop)].
Definition demo_s0 : State :=
  set_events (<["A" := false]> (<["B" := false]> ∅)) init_state.
(** [A] runs to its end, then [B] passes its wait and the abort check. *)
Definition demo_config : Config :=
  default (demo_s0, []) (run_schedule [0; 0; 0; 0; 0; 1; 1; 1] (demo_s0, launch demo_mods)).
Definition demo_thread_B : RunThread := mkRunThread (mkDef "B" None ["A"]) (Plain nop nop) RBody.

Lemma begin_after_dependencies_witness :
  reachable (demo_s0, launch demo_mods) demo_config /\
  demo_config.2 !! 1 = Some demo_thread_B /\
  (exists c', sys_step demo_config (1, LBegin) c') /\
  (forall d, d ∈ md_wants (rt_def demo_thread_B) ->
     threading_event_per_module demo_config.1 !! d = Some true).
Proof.
  assert (H1 : reachable (demo_s0, launch demo_mods) demo_config).
  { apply (run_schedule_reachable [0; 0; 0; 0; 0; 1; 1; 1] _ _ _ (reach_refl _)).
    unfold demo_config.
    destruct (run_schedule _ _) eqn:E; [reflexivity|]. vm_compute in E. discriminate. }
  assert (H2 : demo_config.2 !! 1 = Some demo_thread_B) by (vm_compute; reflexivity).
  assert (H3 : exists c', sys_step demo_config (1, LBegin) c').
  { destruct demo_config as [s ths]. eexists. econstructor; [exact H2|].
    vm_compute. reflexivity. }
  split; [exact H1|split; [exact H2|split; [exact H3|]]].
  destruct H3 as [c' H3]. destruct demo_config as [s ths].
  exact (begin_after_dependencies demo_mods demo_s0 s ths 1 demo_thread_B c' H1 H2 H3).
Defined.

(* ================================================================== *)
(** * Fan-out *)

(** The entry points of module [name] called, in order, according to a log. *)
Fixpoint calls (name : string) (l : list Obs) : list Entry :=
  match l with
  | [] => []
  | OCall n e :: l' => if String.eqb n name then e :: calls name l' else calls name l'
  | _ :: l' => calls name l'
  end.
















(* ================================================================== *)
(** * Recording of faults *)














(* ================================================================== *)
(** * Preflights *)

Definition critical_record : ErrorRecord :=
  mkError "preflight check failed" "P1" "" true false.
Definition demo_preflights : list Preflight :=
  [mkPreflight "P1" nop (mkBehaviour [AAddError critical_record] OOk);
   mkPreflight "P2" nop nop].
Definition demo_preflights_declared : list Preflight :=
  [mkPreflight "P1" nop (mkBehaviour [] (ODeclared "preflight check failed" true));
   mkPreflight "P2" nop nop].

(** C8 (code_bug): the [CheckErrors(is_global=True)] after each preflight
    reads the global list, but a preflight's errors are in the round list
    (nothing calls [CleanUp] between preflights). A critical error recorded
    by [P1] is not raised, and [P2]'s [SetUp] and [Process] run; when [P1]
    raises its declared critical error, the run stops with that error, not
    with the [CriticalError] of [CheckErrors]. *)
Theorem preflight_critical_error_not_checked :
  snd (RunPreflights demo_preflights init_state) = inr tt /\
  calls "P2" (obs (fst (RunPreflights demo_preflights init_state))) = [ESetUp; EProcess] /\
  errors (fst (RunPreflights demo_preflights init_state)) = [critical_record] /\
  global_errors (fst (RunPreflights demo_preflights init_state)) = [] /\
  snd (RunPreflights demo_preflights_declared init_state) =
    inl (ExDFTimewolf critical_record) /\
  calls "P2" (obs (fst (RunPreflights demo_preflights_declared init_state))) = [].
Proof. vm_compute. repeat split. Qed.

(* ================================================================== *)
(** * Loading a recipe: [ImportRecipeModules] and [LoadRecipe] *)

(** A JSON value of a recipe's [args]. *)
#[warnings="-register-all"]
Inductive Value :=
| VNull
| VBool (b : bool)
| VInt (z : Z)
| VStr (s : string)
| VList (l : list Value).

(** A module or preflight entry of a recipe: [name], the optional
    [runtime_name], the optional [args] (in dict order) and [wants]. *)
Record RecipeEntry := mkEntry {
  re_name : string;
  re_runtime_name : option string;
  re_args : option (list (string * Value));
  re_wants : list string
}.

(** The recipe dict: [name], [modules] and [preflights], each possibly absent. *)
Record Recipe := mkRecipe {
  r_name : option string;
  r_modules : option (list RecipeEntry);
  r_preflights : option (list RecipeEntry)
}.

(** [self.recipe = {}] *)
Definition empty_recipe : Recipe := mkRecipe None None None.

(** The exceptions raised while loading a recipe or formatting its plan. *)
Inductive LoadExc :=
| RecipeParseError (msg : string)   (* errors.RecipeParseError *)
| KeyError (key : string)
| TypeError (msg : string)
| ImportFailure (msg : string).     (* an import error other than ModuleNotFoundError *)

(** How [importlib.import_module(location)] ends. *)
Inductive ImportOutcome :=
| IOk
| INotFound (text : string)         (* ModuleNotFoundError, with its str() *)
| IFailed (text : string).          (* any other exception *)

(** A module class: [module_class(self, name=runtime_name)] gives the module. *)
Definition ModuleClass := string -> Module.

(** The part of the state that recipe loading uses. *)
Record Loader := mkLoader {
  recipe : Recipe;                          (* self.recipe *)
  module_pool : gmap string Module;         (* self._module_pool *)
  imported : list string;                   (* Python modules imported, in order *)
  debug_log : list string                   (* logger.debug lines *)
}.

Definition init_loader : Loader := mkLoader empty_recipe ∅ [] [].

Definition set_recipe r ls := mkLoader r (module_pool ls) (imported ls) (debug_log ls).
Definition set_pool p ls := mkLoader (recipe ls) p (imported ls) (debug_log ls).
Definition add_imported loc ls :=
  mkLoader (recipe ls) (module_pool ls) (imported ls ++ [loc]) (debug_log ls).
Definition add_debug line ls :=
  mkLoader (recipe ls) (module_pool ls) (imported ls) (debug_log ls ++ [line]).

Definition not_declared_msg (recipe_name name : string) : string :=
  "In " ++ recipe_name ++ ": module " ++ name ++ " cannot be found. It may not have been declared.".

Definition not_found_msg (name location text : string) : string :=
  "Cannot find Python module for " ++ name ++ " (" ++ location ++ "): " ++ text.

(** [if not runtime_name: runtime_name = module_name] in [LoadRecipe]. *)
Definition pool_key (d : RecipeEntry) : string :=
  match re_runtime_name d with
  | Some r => if String.eqb r "" then re_name d else r
  | None => re_name d
  end.

(** The run-time view of a recipe entry ([module_definition] in the drivers). *)
Definition entry_def (d : RecipeEntry) : ModuleDefinition :=
  mkDef (re_name d) (re_runtime_name d) (re_wants d).

Section Loading.
(** [importlib.import_module] and the registry of [modules/manager.py]
    ([ModulesManager.GetModuleByName]), which are not part of the state. *)
Variable import_module : string -> ImportOutcome.
Variable GetModuleByName : string -> option ModuleClass.

(** The loop of [ImportRecipeModules]. *)
Fixpoint import_each (locs : gmap string string) (ms : list RecipeEntry) (ls : Loader)
  : Loader * option LoadExc :=
  match ms with
  | [] => (ls, None)
  | module :: rest =>
      let name := re_name module in
      match locs !! name with
      | None =>
          match r_name (recipe ls) with
          | None => (ls, Some (KeyError "name"))   (* self.recipe["name"] in the f-string *)
          | Some rn => (ls, Some (RecipeParseError (not_declared_msg rn name)))
          end
      | Some location =>
          let ls1 := add_debug ("Loading module " ++ name ++ " from " ++ location) ls in
          match import_module location with
          | IOk => import_each locs rest (add_imported location ls1)
          | INotFound text => (ls1, Some (RecipeParseError (not_found_msg name location text)))
          | IFailed text => (ls1, Some (ImportFailure text))
          end
      end
  end.

(** [for module in self.recipe['modules'] + self.recipe.get('preflights', [])] *)
Definition ImportRecipeModules (locs : gmap string string) (ls : Loader) : Loader * option LoadExc :=
  match r_modules (recipe ls) with
  | None => (ls, Some (KeyError "modules"))
  | Some ms => import_each locs (ms ++ default [] (r_preflights (recipe ls))) ls
  end.

(** The pool-filling loop of [LoadRecipe]. *)
Fixpoint pool_each (defs : list RecipeEntry) (ls : Loader) : Loader * option LoadExc :=
  match defs with
  | [] => (ls, None)
  | module_definition :: rest =>
      match GetModuleByName (re_name module_definition) with
      | None => (ls, Some (TypeError "'NoneType' object is not callable"))
      | Some module_class =>
          let rn := pool_key module_definition in
          pool_each rest (set_pool (<[rn := module_class rn]> (module_pool ls)) ls)
      end
  end.

Definition LoadRecipe (r : Recipe) (locs : gmap string string) (ls : Loader)
  : Loader * option LoadExc :=
  let ls1 := set_recipe r ls in
  let module_definitions := default [] (r_modules r) in
  let preflight_definitions := default [] (r_preflights r) in
  match ImportRecipeModules locs ls1 with
  | (ls2, Some e) => (ls2, Some e)
  | (ls2, None) => pool_each (module_definitions ++ preflight_definitions) ls2
  end.

(** An entry whose name is declared and whose Python module imports. *)
Definition entry_ok (locs : gmap string string) (d : RecipeEntry) : bool :=
  match locs !! re_name d with
  | Some location => match import_module location with IOk => true | _ => false end
  | None => false
  end.
End Loading.

(* ------------------------------------------------------------------ *)
(** ** Setting up modules from the pool *)

(** [_SetupModuleThread] with its [self._module_pool[runtime_name]] lookup,
    which comes after the 'Setting up module' line and outside the [try]. *)
Definition SetupModuleThreadPooled (pool : gmap string Module) (md : ModuleDefinition) : M unit :=
  match pool !! runtime_name md with
  | None =>
      let* _ := log (LSettingUp (runtime_name md)) in
      raise (ExOther ("KeyError: " ++ runtime_name md))
  | Some m => SetupModuleThread md m
  end.

(** [threading.Thread(target=...)]: an exception escaping the target ends
    the thread and is reported by [threading.excepthook]; [join] does not
    raise it. *)
Definition in_thread (m : M unit) : M unit := fun s => (fst (m s), inr tt).

(** [SetupModules] ([_InvokeModulesInThreads(self._SetupModuleThread)]),
    with the setup threads running one after another in the order [order]. *)
Definition SetupModules (pool : gmap string Module) (order : list ModuleDefinition) : M unit :=
  let* _ := mapM_ (fun md => in_thread (SetupModuleThreadPooled pool md)) order in
  CheckErrors true.

(* ------------------------------------------------------------------ *)
(** ** Cleaning up preflights *)



(* ================================================================== *)
(** * Recipe loading *)

Section LoadingFacts.
Variable import_module : string -> ImportOutcome.
Variable GetModuleByName : string -> option ModuleClass.

Lemma import_each_prefix locs pre rest ls :
  forallb (entry_ok import_module locs) pre = true ->
  exists ls', import_each import_module locs (pre ++ rest) ls = import_each import_module locs rest ls' /\
    imported ls' = imported ls ++ omap (fun d => locs !! re_name d) pre /\
    recipe ls' = recipe ls /\ module_pool ls' = module_pool ls.
Proof.
  revert ls. induction pre as [|d pre IH]; intros ls Hok; simpl in *.
  - exists ls. rewrite app_nil_r. repeat split.
  - apply andb_prop in Hok. destruct Hok as [Hd Hok].
    unfold entry_ok in Hd. destruct (locs !! re_name d) as [loc|] eqn:Hloc; [|discriminate].
    destruct (import_module loc) eqn:Himp; try discriminate.
    destruct (IH (add_imported loc (add_debug ("Loading module " ++ re_name d ++ " from " ++ loc) ls)) Hok)
      as (ls' & Heq & Himpd & Hr & Hp).
    exists ls'. split; [exact Heq|]. rewrite Himpd. simpl.
    split; [rewrite <- app_assoc; reflexivity|split; assumption].
Qed.

Lemma import_each_ok_iff locs ms ls :
  snd (import_each import_module locs ms ls) = None <->
  forallb (entry_ok import_module locs) ms = true.
Proof.
  revert ls. induction ms as [|d ms IH]; intros ls; simpl; [split; reflexivity|].
  unfold entry_ok at 1. destruct (locs !! re_name d) as [loc|].
  - destruct (import_module loc); simpl; [apply IH|split; discriminate|split; discriminate].
  - destruct (r_name (recipe ls)); simpl; split; discriminate.
Qed.

Lemma import_each_frame locs ms ls :
  recipe (fst (import_each import_module locs ms ls)) = recipe ls /\
  module_pool (fst (import_each import_module locs ms ls)) = module_pool ls.
Proof.
  revert ls. induction ms as [|d ms IH]; intros ls; simpl; [split; reflexivity|].
  destruct (locs !! re_name d) as [loc|].
  - destruct (import_module loc); simpl; [exact (IH _)|split; reflexivity|split; reflexivity].
  - destruct (r_name (recipe ls)); split; reflexivity.
Qed.

Lemma find_app_single {A} (f : A -> bool) (l : list A) (x : A) :
  find f (l ++ [x]) = match find f l with Some y => Some y | None => if f x then Some x else None end.
Proof.
  induction l as [|y l IH]; simpl; [reflexivity|].
  destruct (f y); [reflexivity|exact IH].
Qed.

Lemma pool_each_ok_iff defs ls :
  snd (pool_each GetModuleByName defs ls) = None <->
  Forall (fun d => is_Some (GetModuleByName (re_name d))) defs.
Proof.
  revert ls. induction defs as [|d defs IH]; intros ls; simpl.
  - split; intros; [constructor|reflexivity].
  - rewrite Forall_cons. destruct (GetModuleByName (re_name d)) as [c|].
    + rewrite IH. split; [intros H; split; [eexists; reflexivity|exact H]|intros [_ H]; exact H].
    + simpl. split; [discriminate|intros [[? H] _]; discriminate].
Qed.

Lemma pool_each_pool defs ls :
  Forall (fun d => is_Some (GetModuleByName (re_name d))) defs ->
  recipe (fst (pool_each GetModuleByName defs ls)) = recipe ls /\
  forall k, module_pool (fst (pool_each GetModuleByName defs ls)) !! k =
    match find (fun d => String.eqb (pool_key d) k) (rev defs) with
    | Some d => (fun c => c k) <$> GetModuleByName (re_name d)
    | None => module_pool ls !! k
    end.
Proof.
  revert ls. induction defs as [|d defs IH]; intros ls Hall; simpl; [split; reflexivity|].
  inversion Hall as [|? ? [c Hc] Hall']; subst.
  rewrite Hc. destruct (IH (set_pool (<[pool_key d := c (pool_key d)]> (module_pool ls)) ls) Hall')
    as [Hr Hk].
  split; [exact Hr|]. intros k. rewrite Hk, find_app_single.
  destruct (find _ (rev defs)) as [d'|]; [reflexivity|]. simpl.
  destruct (String.eqb (pool_key d) k) eqn:E.
  - apply String.eqb_eq in E. subst k. rewrite lookup_insert_eq, Hc. reflexivity.
  - apply String.eqb_neq in E. rewrite lookup_insert_ne by exact E. reflexivity.
Qed.

(** X1: [ImportRecipeModules] returns normally exactly when the recipe has
    a [modules] list and every module, then every preflight, has a declared
    location whose Python module imports; it then has imported those
    locations in that order, and changed neither the recipe nor the pool. *)
Theorem import_recipe_modules_ok (locs : gmap string string) (ls : Loader) (ms : list RecipeEntry) :
  r_modules (recipe ls) = Some ms ->
  let defs := ms ++ default [] (r_preflights (recipe ls)) in
  (snd (ImportRecipeModules import_module locs ls) = None <->
     forallb (entry_ok import_module locs) defs = true) /\
  (forallb (entry_ok import_module locs) defs = true ->
     imported (fst (ImportRecipeModules import_module locs ls)) =
       imported ls ++ omap (fun d => locs !! re_name d) defs /\
     recipe (fst (ImportRecipeModules import_module locs ls)) = recipe ls /\
     module_pool (fst (ImportRecipeModules import_module locs ls)) = module_pool ls).
Proof.
  intros Hms defs. unfold ImportRecipeModules. rewrite Hms. fold defs.
  split; [apply import_each_ok_iff|].
  intros Hok. destruct (import_each_prefix locs defs [] ls Hok) as (ls' & Heq & H1 & H2 & H3).
  rewrite app_nil_r in Heq. rewrite Heq. simpl. auto.
Qed.

(** X2: when the modules and preflights before entry [d] are all
    importable and [d] is not, [ImportRecipeModules] stops at [d]: it has
    imported only the earlier locations, and raises [RecipeParseError],
    naming the recipe and [d] when [d]'s name has no declared location, or
    naming [d], its location and the import error when the module is not
    found. *)
Theorem import_recipe_modules_first_failure (locs : gmap string string) (ls : Loader)
    (ms pre post : list RecipeEntry) (d : RecipeEntry) :
  r_modules (recipe ls) = Some ms ->
  ms ++ default [] (r_preflights (recipe ls)) = pre ++ d :: post ->
  forallb (entry_ok import_module locs) pre = true ->
  entry_ok import_module locs d = false ->
  let r := ImportRecipeModules import_module locs ls in
  imported (fst r) = imported ls ++ omap (fun d' => locs !! re_name d') pre /\
  (locs !! re_name d = None -> forall rn, r_name (recipe ls) = Some rn ->
     snd r = Some (RecipeParseError (not_declared_msg rn (re_name d)))) /\
  (forall location text, locs !! re_name d = Some location -> import_module location = INotFound text ->
     snd r = Some (RecipeParseError (not_found_msg (re_name d) location text))).
Proof.
  intros Hms Hsplit Hpre Hd r. subst r. unfold ImportRecipeModules. rewrite Hms, Hsplit.
  destruct (import_each_prefix locs pre (d :: post) ls Hpre) as (ls' & Heq & H1 & H2 & _).
  rewrite Heq. simpl. unfold entry_ok in Hd.
  destruct (locs !! re_name d) as [loc|] eqn:Hloc.
  - destruct (import_module loc) eqn:Himp; [discriminate| |]; simpl.
    + split; [exact H1|split; [discriminate|]].
      intros location text' Hl Hi. injection Hl as <-. rewrite Himp in Hi. injection Hi as <-. reflexivity.
    + split; [exact H1|split; [discriminate|]].
      intros location text' Hl Hi. injection Hl as <-. congruence.
  - rewrite H2. destruct (r_name (recipe ls)) as [rn0|]; simpl.
    + split; [exact H1|split; [|intros ? ? Hc; discriminate]].
      intros _ rn Hrn. injection Hrn as <-. reflexivity.
    + split; [exact H1|split; [|intros ? ? Hc; discriminate]].
      intros _ rn Hrn. discriminate.
Qed.

(** X3: a recipe without a [modules] entry makes [LoadRecipe] raise
    [KeyError('modules')] (the [recipe.get('modules', [])] default never
    applies), after the recipe has been stored, with nothing imported and
    the module pool unchanged, even when the recipe has preflights. *)
Theorem load_recipe_requires_modules (r : Recipe) (locs : gmap string string) (ls : Loader) :
  r_modules r = None ->
  LoadRecipe import_module GetModuleByName r locs ls = (set_recipe r ls, Some (KeyError "modules")).
Proof. intros H. unfold LoadRecipe, ImportRecipeModules. simpl. rewrite H. reflexivity. Qed.

Lemma load_recipe_eq r locs ls ms :
  r_modules r = Some ms ->
  LoadRecipe import_module GetModuleByName r locs ls =
  match import_each import_module locs (ms ++ default [] (r_preflights r)) (set_recipe r ls) with
  | (ls2, Some e) => (ls2, Some e)
  | (ls2, None) => pool_each GetModuleByName (ms ++ default [] (r_preflights r)) ls2
  end.
Proof. intros H. unfold LoadRecipe, ImportRecipeModules. simpl. rewrite H. reflexivity. Qed.

(** X4: [LoadRecipe] of a recipe with a [modules] list succeeds exactly
    when every module and preflight is importable and its name is
    registered; then the recipe is stored, and each pool key [k] holds the
    instance, named [k], of the class of the LAST entry whose runtime name
    ([runtime_name], or [name] when that is missing or empty) is [k]; the
    other keys keep their old modules. *)
Theorem load_recipe_pool (r : Recipe) (locs : gmap string string) (ls : Loader) (ms : list RecipeEntry) :
  r_modules r = Some ms ->
  let defs := ms ++ default [] (r_preflights r) in
  let ls' := fst (LoadRecipe import_module GetModuleByName r locs ls) in
  (snd (LoadRecipe import_module GetModuleByName r locs ls) = None <->
     forallb (entry_ok import_module locs) defs = true /\
     Forall (fun d => is_Some (GetModuleByName (re_name d))) defs) /\
  (snd (LoadRecipe import_module GetModuleByName r locs ls) = None ->
     recipe ls' = r /\
     forall k, module_pool ls' !! k =
       match find (fun d => String.eqb (pool_key d) k) (rev defs) with
       | Some d => (fun c => c k) <$> GetModuleByName (re_name d)
       | None => module_pool ls !! k
       end).
Proof.
  intros Hms defs ls'. subst ls'. rewrite (load_recipe_eq r locs ls ms Hms). fold defs.
  pose proof (import_each_ok_iff locs defs (set_recipe r ls)) as Hiff.
  destruct (import_each_frame locs defs (set_recipe r ls)) as [Hr Hp].
  destruct (import_each import_module locs defs (set_recipe r ls)) as [ls2 [e|]] eqn:E; simpl in *.
  - split; [|discriminate]. split; [discriminate|intros [Hok _]; apply Hiff in Hok; discriminate].
  - split.
    + rewrite pool_each_ok_iff. split; [intros H; split; [apply Hiff; reflexivity|exact H]|tauto].
    + intros Hnone. apply pool_each_ok_iff in Hnone.
      destruct (pool_each_pool defs ls2 Hnone) as [H1 H2]. split; [congruence|].
      intros k. rewrite H2, Hp. reflexivity.
Qed.

Lemma find_pool_key_not_empty (defs : list RecipeEntry) :
  Forall (fun d => re_name d <> "") defs ->
  find (fun d => String.eqb (pool_key d) "") (rev defs) = None.
Proof.
  intros Hall. assert (Hall' : Forall (fun d => re_name d <> "") (rev defs)).
  { apply Forall_forall. intros d Hd. apply list_elem_of_In, in_rev, list_elem_of_In in Hd.
    rewrite Forall_forall in Hall. exact (Hall d Hd). }
  clear Hall. induction (rev defs) as [|d l IH]; simpl; [reflexivity|].
  inversion Hall' as [|? ? Hd Hl]; subst.
  destruct (String.eqb (pool_key d) "") eqn:E; [|exact (IH Hl)].
  exfalso. apply String.eqb_eq in E. unfold pool_key in E.
  destruct (re_runtime_name d) as [rn|]; [|exact (Hd E)].
  destruct (String.eqb rn "") eqn:E2; [exact (Hd E)|].
  subst rn. discriminate.
Qed.

(** X5: an entry with an empty [runtime_name] is pooled by [LoadRecipe]
    under its [name], but [_SetupModuleThread] looks it up under
    [module_definition.get('runtime_name', module_name)], which is the
    empty string: with no entry named "" in the pool, its setup thread logs
    'Setting up module' and then dies with a [KeyError], without creating
    its event, recording an error or calling [CleanUp]. *)
Theorem empty_runtime_name_setup_fails (r : Recipe) (locs : gmap string string) (ls : Loader)
    (d : RecipeEntry) (s : State) :
  let defs := default [] (r_modules r) ++ default [] (r_preflights r) in
  let pool := module_pool (fst (LoadRecipe import_module GetModuleByName r locs ls)) in
  snd (LoadRecipe import_module GetModuleByName r locs ls) = None ->
  d ∈ defs ->
  re_runtime_name d = Some "" ->
  Forall (fun d' => re_name d' <> "") defs ->
  module_pool ls !! "" = None ->
  is_Some (pool !! re_name d) /\
  SetupModuleThreadPooled pool (entry_def d) s =
    (set_obs (obs s ++ [OLog (LSettingUp "")]) s, inl (ExOther "KeyError: ")).
Proof.
  intros defs pool Hok Hd Hrn Hnames Hempty.
  destruct (r_modules r) as [ms|] eqn:Hms.
  2:{ exfalso. rewrite (load_recipe_requires_modules r locs ls Hms) in Hok. discriminate. }
  destruct (load_recipe_pool r locs ls ms Hms) as [Hiff Hpool].
  specialize (Hpool Hok). destruct Hpool as [_ Hk]. simpl in defs. fold defs in Hiff, Hk.
  apply Hiff in Hok. destruct Hok as [_ Hcls].
  split.
  - subst pool. rewrite Hk.
    assert (Hkey : pool_key d = re_name d) by (unfold pool_key; rewrite Hrn; reflexivity).
    destruct (find (fun d' => String.eqb (pool_key d') (re_name d)) (rev defs)) as [d'|] eqn:Ef.
    + apply find_some in Ef. destruct Ef as [Hin _].
      apply in_rev in Hin. apply list_elem_of_In in Hin.
      rewrite Forall_forall in Hcls. destruct (Hcls d' Hin) as [c Hc]. rewrite Hc. eexists; reflexivity.
    + exfalso. assert (Hin : In d (rev defs)) by (apply (proj1 (in_rev defs d)), list_elem_of_In; exact Hd).
      pose proof (find_none _ _ Ef d Hin) as Hf. simpl in Hf.
      rewrite Hkey, String.eqb_refl in Hf. discriminate.
  - unfold SetupModuleThreadPooled. unfold runtime_name, entry_def. simpl. rewrite Hrn. simpl.
    subst pool. rewrite Hk, find_pool_key_not_empty by exact Hnames. rewrite Hempty. reflexivity.
Qed.
End LoadingFacts.

(** A concrete setting for the loading lemmas: three declared modules, one
    of whose Python module cannot be found. *)
Definition demo_import (location : string) : ImportOutcome :=
  if String.eqb location "dftimewolf.lib.missing"
  then INotFound "No module named 'dftimewolf.lib.missing'" else IOk.
Definition demo_registry (name : string) : option ModuleClass :=
  if String.eqb name "Unregistered" then None else Some (fun _ => Plain nop nop).
Definition demo_locs : gmap string string :=
  <["GRRArtifactCollector" := "dftimewolf.lib.collectors.grr_hosts"]>
  (<["LocalPlasoProcessor" := "dftimewolf.lib.processors.localplaso"]>
  (<["Broken" := "dftimewolf.lib.missing"]> ∅)).
Definition demo_grr : RecipeEntry :=
  mkEntry "GRRArtifactCollector" None (Some [("hosts", VStr "h1")]) [].
Definition demo_plaso : RecipeEntry :=
  mkEntry "LocalPlasoProcessor" (Some "plaso") (Some []) ["GRRArtifactCollector"].
Definition demo_broken : RecipeEntry := mkEntry "Broken" None (Some []) [].
Definition demo_recipe : Recipe := mkRecipe (Some "demo") (Some [demo_grr; demo_plaso]) (Some []).

Lemma import_recipe_modules_ok_witness :
  r_modules (recipe (set_recipe demo_recipe init_loader)) = Some [demo_grr; demo_plaso] /\
  let defs := [demo_grr; demo_plaso] ++ default [] (r_preflights demo_recipe) in
  (snd (ImportRecipeModules demo_import demo_locs (set_recipe demo_recipe init_loader)) = None <->
     forallb (entry_ok demo_import demo_locs) defs = true) /\
  (forallb (entry_ok demo_import demo_locs) defs = true ->
     imported (fst (ImportRecipeModules demo_import demo_locs (set_recipe demo_recipe init_loader))) =
       imported (set_recipe demo_recipe init_loader) ++ omap (fun d => demo_locs !! re_name d) defs /\
     recipe (fst (ImportRecipeModules demo_import demo_locs (set_recipe demo_recipe init_loader))) =
       recipe (set_recipe demo_recipe init_loader) /\
     module_pool (fst (ImportRecipeModules demo_import demo_locs (set_recipe demo_recipe init_loader))) =
       module_pool (set_recipe demo_recipe init_loader)).
Proof.
  split; [reflexivity|].
  exact (import_recipe_modules_ok demo_import demo_locs (set_recipe demo_recipe init_loader)
           [demo_grr; demo_plaso] eq_refl).
Defined.

Definition demo_recipe_broken : Recipe :=
  mkRecipe (Some "demo") (Some [demo_grr; demo_broken; demo_plaso]) None.

Lemma import_recipe_modules_first_failure_witness :
  let ls := set_recipe demo_recipe_broken init_loader in
  r_modules (recipe ls) = Some [demo_grr; demo_broken; demo_plaso] /\
  [demo_grr; demo_broken; demo_plaso] ++ default [] (r_preflights (recipe ls)) =
    [demo_grr] ++ demo_broken :: [demo_plaso] /\
  forallb (entry_ok demo_import demo_locs) [demo_grr] = true /\
  entry_ok demo_import demo_locs demo_broken = false /\
  snd (ImportRecipeModules demo_import demo_locs ls) =
    Some (RecipeParseError (not_found_msg "Broken" "dftimewolf.lib.missing"
                              "No module named 'dftimewolf.lib.missing'")).
Proof.
  intros ls.
  assert (H1 : r_modules (recipe ls) = Some [demo_grr; demo_broken; demo_plaso]) by reflexivity.
  assert (H2 : [demo_grr; demo_broken; demo_plaso] ++ default [] (r_preflights (recipe ls)) =
               [demo_grr] ++ demo_broken :: [demo_plaso]) by reflexivity.
  assert (H3 : forallb (entry_ok demo_import demo_locs) [demo_grr] = true) by reflexivity.
  assert (H4 : entry_ok demo_import demo_locs demo_broken = false) by reflexivity.
  split; [exact H1|split; [exact H2|split; [exact H3|split; [exact H4|]]]].
  destruct (import_recipe_modules_first_failure demo_import demo_locs ls _ [demo_grr] [demo_plaso]
              demo_broken H1 H2 H3 H4) as (_ & _ & H).
  apply (H "dftimewolf.lib.missing"); reflexivity.
Defined.

Definition demo_recipe_no_modules : Recipe :=
  mkRecipe (Some "demo") None (Some [demo_grr]).

Lemma load_recipe_requires_modules_witness :
  r_modules demo_recipe_no_modules = None /\
  LoadRecipe demo_import demo_registry demo_recipe_no_modules demo_locs init_loader =
    (set_recipe demo_recipe_no_modules init_loader, Some (KeyError "modules")).
Proof.
  split; [reflexivity|].
  exact (load_recipe_requires_modules demo_import demo_registry demo_recipe_no_modules demo_locs
           init_loader eq_refl).
Defined.

Lemma load_recipe_pool_witness :
  r_modules demo_recipe = Some [demo_grr; demo_plaso] /\
  snd (LoadRecipe demo_import demo_registry demo_recipe demo_locs init_loader) = None /\
  recipe (fst (LoadRecipe demo_import demo_registry demo_recipe demo_locs init_loader)) = demo_recipe /\
  is_Some (module_pool (fst (LoadRecipe demo_import demo_registry demo_recipe demo_locs init_loader))
             !! "plaso").
Proof.
  assert (H1 : r_modules demo_recipe = Some [demo_grr; demo_plaso]) by reflexivity.
  assert (H2 : snd (LoadRecipe demo_import demo_registry demo_recipe demo_locs init_loader) = None)
    by reflexivity.
  destruct (load_recipe_pool demo_import demo_registry demo_recipe demo_locs init_loader _ H1)
    as [_ H]. destruct (H H2) as [Hr Hk].
  split; [exact H1|split; [exact H2|split; [exact Hr|]]].
  rewrite Hk. simpl. eexists. reflexivity.
Defined.

Definition demo_unnamed : RecipeEntry := mkEntry "LocalPlasoProcessor" (Some "") (Some []) [].
Definition demo_recipe_unnamed : Recipe := mkRecipe (Some "demo") (Some [demo_grr; demo_unnamed]) None.

Lemma empty_runtime_name_setup_fails_witness :
  let defs := default [] (r_modules demo_recipe_unnamed) ++ default [] (r_preflights demo_recipe_unnamed) in
  let pool := module_pool (fst (LoadRecipe demo_import demo_registry demo_recipe_unnamed demo_locs init_loader)) in
  snd (LoadRecipe demo_import demo_registry demo_recipe_unnamed demo_locs init_loader) = None /\
  demo_unnamed ∈ defs /\
  re_runtime_name demo_unnamed = Some "" /\
  Forall (fun d' => re_name d' <> "") defs /\
  module_pool init_loader !! "" = None /\
  is_Some (pool !! re_name demo_unnamed) /\
  SetupModuleThreadPooled pool (entry_def demo_unnamed) init_state =
    (set_obs (obs init_state ++ [OLog (LSettingUp "")]) init_state, inl (ExOther "KeyError: ")).
Proof.
  intros defs pool.
  assert (H1 : snd (LoadRecipe demo_import demo_registry demo_recipe_unnamed demo_locs init_loader) = None)
    by reflexivity.
  assert (H2 : demo_unnamed ∈ defs) by (right; left).
  assert (H3 : re_runtime_name demo_unnamed = Some "") by reflexivity.
  assert (H4 : Forall (fun d' => re_name d' <> "") defs) by (repeat constructor; discriminate).
  assert (H5 : module_pool init_loader !! "" = None) by reflexivity.
  split; [exact H1|split; [exact H2|split; [exact H3|split; [exact H4|split; [exact H5|]]]]].
  exact (empty_runtime_name_setup_fails demo_import demo_registry demo_recipe_unnamed demo_locs
           init_loader demo_unnamed init_state H1 H2 H3 H4 H5).
Defined.

(* ================================================================== *)
(** * Cache and store *)

(** X6: after [AddToCache(name, value)], [GetFromCache(name, d)] returns
    [value] (the latest value wins) and every other name reads as before;
    a name never cached reads as the default; [GetFromCache] changes
    nothing. *)
Theorem cache_round_trip (name value default_value : string) (s : State) :
  snd (GetFromCache name default_value (fst (AddToCache name value s))) = inr value /\
  (forall other, other <> name ->
     snd (GetFromCache other default_value (fst (AddToCache name value s))) =
     snd (GetFromCache other default_value s)) /\
  (cache s !! name = None -> snd (GetFromCache name default_value s) = inr default_value) /\
  fst (GetFromCache name default_value s) = s.
Proof.
  split; [|split; [|split]].
  - simpl. rewrite lookup_insert_eq. reflexivity.
  - intros other Hne. simpl. rewrite lookup_insert_ne by congruence. reflexivity.
  - intros H. simpl. rewrite H. reflexivity.
  - reflexivity.
Qed.

(** X7: the store's tags are independent: [StoreContainer c] changes only
    the list of [c]'s tag and [GetContainers(T, pop)] only that of [T]; a
    tag never stored reads as empty, and popping it records an empty list
    for it. *)
Theorem store_tags_independent (c : Container) (T T' : string) (pop : bool) (s : State) :
  (T' <> c_type c -> store (fst (StoreContainer c s)) !! T' = store s !! T') /\
  (T' <> T -> store (fst (GetContainers T pop s)) !! T' = store s !! T') /\
  (store s !! T = None ->
     snd (GetContainers T pop s) = inr [] /\
     store (fst (GetContainers T pop s)) !! T = if pop then Some [] else None).
Proof.
  split; [|split].
  - intros Hne. simpl. rewrite lookup_insert_ne by congruence. reflexivity.
  - intros Hne. unfold GetContainers. destruct pop; simpl; [|reflexivity].
    rewrite lookup_insert_ne by congruence. reflexivity.
  - intros H. unfold GetContainers. rewrite H. simpl. split; [reflexivity|].
    destruct pop; simpl; [apply lookup_insert_eq|exact H].
Qed.

(* ================================================================== *)
(** * Cleaning up preflights *)










(* ================================================================== *)
(** * The setup phase *)

Lemma handle_module_errors_ok name crit body s :
  snd (handle_module_errors name crit body s) = inr tt.
Proof.
  unfold handle_module_errors, try_except.
  destruct (body s) as [s' [e|[]]]; [|reflexivity]. destruct e; reflexivity.
Qed.

Lemma events_same_setup_handle name m :
  preserves events_same (handle_module_errors name (LSetupCritical name) (setup_logic name m)).
Proof. apply pres_handle; try apply pres_setup_logic; events_same_tac. Qed.

Lemma SetupModuleThread_fst md m s :
  exists s2, threading_event_per_module s2 = threading_event_per_module s /\
    fst (SetupModuleThread md m s) =
    fst (CleanUp (set_events (<[runtime_name md := false]> (threading_event_per_module s2)) s2)).
Proof.
  set (name := runtime_name md).
  pose proof (events_same_setup_handle name m) as Hev.
  unfold SetupModuleThread. fold name. unfold bind at 1. simpl. unfold bind at 1.
  set (s1 := set_obs (obs s ++ [OLog (LSettingUp name)]) s).
  pose proof (Hev s1) as He. pose proof (handle_module_errors_ok name (LSetupCritical name) (setup_logic name m) s1) as Hok.
  destruct (handle_module_errors name (LSetupCritical name) (setup_logic name m) s1) as [s2 r].
  simpl in He, Hok. subst r. exists s2. split; [exact He|reflexivity].
Qed.

Lemma SetupModuleThread_spec md m s :
  threading_event_per_module (fst (SetupModuleThread md m s)) =
    <[runtime_name md := false]> (threading_event_per_module s) /\
  errors (fst (SetupModuleThread md m s)) = [].
Proof.
  destruct (SetupModuleThread_fst md m s) as (s2 & He & ->). simpl. rewrite He. split; reflexivity.
Qed.

Lemma setup_threads_ok pool order s :
  snd (mapM_ (fun md => in_thread (SetupModuleThreadPooled pool md)) order s) = inr tt.
Proof.
  revert s. induction order as [|md order IH]; intros s; simpl; [reflexivity|].
  unfold bind at 1, in_thread. apply IH.
Qed.

Lemma setup_threads_cons pool md order s :
  mapM_ (fun md => in_thread (SetupModuleThreadPooled pool md)) (md :: order) s =
  mapM_ (fun md => in_thread (SetupModuleThreadPooled pool md)) order
        (fst (SetupModuleThreadPooled pool md s)).
Proof. reflexivity. Qed.

Lemma SetupModuleThreadPooled_fst pool md s :
  fst (SetupModuleThreadPooled pool md s) =
  match pool !! runtime_name md with
  | Some m => fst (SetupModuleThread md m s)
  | None => set_obs (obs s ++ [OLog (LSettingUp (runtime_name md))]) s
  end.
Proof. unfold SetupModuleThreadPooled. destruct (pool !! _); reflexivity. Qed.

Definition pooled (pool : gmap string Module) (k : string) : bool :=
  match pool !! k with Some _ => true | None => false end.

(** X10: with the setup threads running one after another in any order
    [order], and an empty round list before: afterwards the round list is
    empty, and the event of name [k] is a fresh, unset one exactly when some
    module of [order] has runtime name [k] and the pool holds [k]; a module
    missing from the pool gets no event, its thread's [KeyError] is not
    raised, and [SetupModules] raises nothing but the [CriticalError] of its
    final [CheckErrors(is_global=True)]. *)
Theorem setup_modules_outcome (pool : gmap string Module) (order : list ModuleDefinition) (s : State) :
  errors s = [] ->
  let s' := fst (mapM_ (fun md => in_thread (SetupModuleThreadPooled pool md)) order s) in
  errors s' = [] /\
  (forall k, threading_event_per_module s' !! k =
     if existsb (fun md => String.eqb (runtime_name md) k) order && pooled pool k
     then Some false else threading_event_per_module s !! k) /\
  (snd (SetupModules pool order s) = inr tt \/
   snd (SetupModules pool order s) = inl (ExCritical "Critical error found. Aborting.")).
Proof.
  intros Herr s'. split; [|split].
  3:{ unfold SetupModules, bind. pose proof (setup_threads_ok pool order s) as Hok.
      fold s'. destruct (mapM_ _ order s) as [s2 r]. simpl in Hok. subst r.
      rewrite CheckErrors_eq. destruct (existsb _ _); [right|left]; reflexivity. }
  all: subst s'; revert s Herr; induction order as [|md order IH]; intros s Herr.
  1: exact Herr.
  2: intros k; reflexivity.
  all: rewrite setup_threads_cons, SetupModuleThreadPooled_fst.
  - destruct (pool !! runtime_name md) as [m|].
    + apply IH. apply SetupModuleThread_spec.
    + apply IH. exact Herr.
  - intros k. simpl existsb. destruct (pool !! runtime_name md) as [m|] eqn:Hp.
    + destruct (SetupModuleThread_spec md m s) as [Hev Herr1].
      rewrite (IH _ Herr1 k), Hev.
      destruct (String.eqb (runtime_name md) k) eqn:Ek.
      * apply String.eqb_eq in Ek. subst k. unfold pooled. rewrite Hp. simpl.
        rewrite andb_true_r. destruct (existsb _ _); [reflexivity|apply lookup_insert_eq].
      * apply String.eqb_neq in Ek. simpl. rewrite lookup_insert_ne by exact Ek. reflexivity.
    + rewrite (IH (set_obs (obs s ++ [OLog (LSettingUp (runtime_name md))]) s) Herr k). simpl.
      destruct (String.eqb (runtime_name md) k) eqn:Ek; [|reflexivity].
      apply String.eqb_eq in Ek. subst k. unfold pooled. rewrite Hp, !andb_false_r. reflexivity.
Qed.

Definition demo_pool : gmap string Module := <["A" := Plain nop nop]> ∅.
Definition demo_setup_order : list ModuleDefinition := [mkDef "A" None []; mkDef "B" None ["A"]].

Lemma setup_modules_outcome_witness :
  errors init_state = [] /\
  let s' := fst (mapM_ (fun md => in_thread (SetupModuleThreadPooled demo_pool md)) demo_setup_order
                   init_state) in
  threading_event_per_module s' !! "A" = Some false /\
  threading_event_per_module s' !! "B" = None /\
  snd (SetupModules demo_pool demo_setup_order init_state) = inr tt.
Proof.
  assert (H : errors init_state = []) by reflexivity.
  split; [exact H|]. intros s'.
  destruct (setup_modules_outcome demo_pool demo_setup_order init_state H) as (_ & Hk & _).
  fold s' in Hk. rewrite !Hk. split; [reflexivity|split; [reflexivity|]]. reflexivity.
Defined.

(* ================================================================== *)
(** * More of the run phase *)

Lemma run_step_event_dom th s l pc' s' :
  run_step th s = Some (l, pc', s') ->
  forall k, is_Some (threading_event_per_module s' !! k) <-> is_Some (threading_event_per_module s !! k).
Proof.
  unfold run_step. intros H k.
  destruct (rt_pc th) as [[|d ds]| | | | | |]; try discriminate.
  - injection H as <- <- <-. reflexivity.
  - destruct (threading_event_per_module s !! d) as [[]|]; try discriminate;
      injection H as <- <- <-; reflexivity.
  - destruct (abort_execution s); injection H as <- <- <-; reflexivity.
  - injection H as <- <- <-. rewrite (events_same_run_body _ _ s). reflexivity.
  - destruct (threading_event_per_module s !! runtime_name (rt_def th)) as [b|] eqn:Eb;
      injection H as <- <- <-; [|reflexivity].
    simpl. destruct (decide (runtime_name (rt_def th) = k)) as [<-|Hne].
    + rewrite lookup_insert_eq, Eb. split; intros _; eexists; reflexivity.
    + rewrite lookup_insert_ne by exact Hne. reflexivity.
  - injection H as <- <- <-. reflexivity.
Qed.

Lemma reachable_event_dom c0 c :
  reachable c0 c ->
  forall k, is_Some (threading_event_per_module c.1 !! k) <-> is_Some (threading_event_per_module c0.1 !! k).
Proof.
  intros Hr. induction Hr as [|c i l c' Hr IH Hstep]; intros k; [reflexivity|].
  inversion Hstep as [s ths i' th l' pc' s' Hth Hrun]; subst. simpl in *.
  rewrite (run_step_event_dom _ _ _ _ _ Hrun k). apply IH.
Qed.

(** X11: a run-phase thread that wants a module which has no event (it was
    never set up) never gets past its dependency wait, under any
    interleaving: it is waiting or has died of the [KeyError], so it never
    runs module logic, never sets its own event and never calls
    [CleanUp]. *)
Theorem missing_dependency_never_runs (mods : list (ModuleDefinition * Module)) (s0 s : State)
    (ths : list RunThread) (i : nat) (th : RunThread) (d : string) :
  reachable (s0, launch mods) (s, ths) ->
  ths !! i = Some th ->
  d ∈ md_wants (rt_def th) ->
  threading_event_per_module s0 !! d = None ->
  (exists ds, rt_pc th = RWait ds) \/ rt_pc th = RCrashed.
Proof.
  intros Hr Hth Hd Hnone.
  pose proof (sys_inv_reachable _ _ (sys_inv_launch s0 mods) Hr i th Hth) as Hinv.
  pose proof (reachable_event_dom _ _ Hr d) as Hdom. simpl in Hdom. rewrite Hnone in Hdom.
  unfold thread_inv in Hinv. simpl in Hinv.
  destruct (rt_pc th) as [ds| | | | | |]; try (left; eexists; reflexivity); try (right; reflexivity);
    exfalso; specialize (Hinv d Hd); apply (is_Some_None (A := bool)); apply Hdom; rewrite Hinv;
    eexists; reflexivity.
Qed.

Definition demo_orphan_mods : list (ModuleDefinition * Module) :=
  [(mkDef "B" None ["Z"], Plain nop nop)].
Definition demo_orphan_s0 : State := set_events (<["B" := false]> ∅) init_state.
Definition demo_orphan_config : Config :=
  default (demo_orphan_s0, []) (run_schedule [0] (demo_orphan_s0, launch demo_orphan_mods)).

Lemma missing_dependency_never_runs_witness :
  reachable (demo_orphan_s0, launch demo_orphan_mods) demo_orphan_config /\
  demo_orphan_config.2 !! 0 = Some (mkRunThread (mkDef "B" None ["Z"]) (Plain nop nop) RCrashed) /\
  "Z" ∈ md_wants (mkDef "B" None ["Z"]) /\
  threading_event_per_module demo_orphan_s0 !! "Z" = None /\
  ((exists ds, rt_pc (mkRunThread (mkDef "B" None ["Z"]) (Plain nop nop) RCrashed) = RWait ds) \/
   rt_pc (mkRunThread (mkDef "B" None ["Z"]) (Plain nop nop) RCrashed) = RCrashed).
Proof.
  assert (H1 : reachable (demo_orphan_s0, launch demo_orphan_mods) demo_orphan_config).
  { apply (run_schedule_reachable [0] _ _ _ (reach_refl _)).
    unfold demo_orphan_config. destruct (run_schedule _ _) eqn:E; [reflexivity|].
    vm_compute in E. discriminate. }
  assert (H2 : demo_orphan_config.2 !! 0 = Some (mkRunThread (mkDef "B" None ["Z"]) (Plain nop nop) RCrashed))
    by (vm_compute; reflexivity).
  assert (H3 : "Z" ∈ md_wants (mkDef "B" None ["Z"])) by left.
  assert (H4 : threading_event_per_module demo_orphan_s0 !! "Z" = None) by reflexivity.
  split; [exact H1|split; [exact H2|split; [exact H3|split; [exact H4|]]]].
  destruct demo_orphan_config as [s ths].
  exact (missing_dependency_never_runs demo_orphan_mods demo_orphan_s0 s ths 0 _ "Z" H1 H2 H3 H4).
Defined.

Lemma run_step_to_cleanup th s l s' :
  run_step th s = Some (l, RCleanUp, s') ->
  threading_event_per_module s' !! runtime_name (rt_def th) = Some true.
Proof.
  unfold run_step. intros H.
  destruct (rt_pc th) as [[|d ds]| | | | | |]; try discriminate.
  - destruct (threading_event_per_module s !! d) as [[]|]; discriminate.
  - destruct (abort_execution s); discriminate.
  - destruct (threading_event_per_module s !! _); [|discriminate].
    injection H as <- <-. apply lookup_insert_eq.
Qed.

Lemma run_step_to_done th s l s' :
  run_step th s = Some (l, RDone, s') ->
  rt_pc th = RCleanUp /\ threading_event_per_module s' = threading_event_per_module s /\ errors s' = [].
Proof.
  unfold run_step. intros H.
  destruct (rt_pc th) as [[|d ds]| | | | | |] eqn:Hpc; try discriminate.
  - destruct (threading_event_per_module s !! d) as [[]|]; discriminate.
  - destruct (abort_execution s); discriminate.
  - destruct (threading_event_per_module s !! _); discriminate.
  - injection H as <- <-. split; [reflexivity|split; reflexivity].
Qed.

Definition done_inv (c : Config) : Prop :=
  forall i th, c.2 !! i = Some th -> (rt_pc th = RCleanUp \/ rt_pc th = RDone) ->
    threading_event_per_module c.1 !! runtime_name (rt_def th) = Some true.

Lemma done_inv_launch s mods : done_inv (s, launch mods).
Proof.
  intros i th H Hpc. simpl in H. unfold launch in H.
  apply list_lookup_fmap_Some in H. destruct H as ([md m] & -> & _).
  simpl in Hpc. destruct Hpc; discriminate.
Qed.

Lemma done_inv_step c i l c' : done_inv c -> sys_step c (i, l) c' -> done_inv c'.
Proof.
  intros Hinv Hstep. inversion Hstep as [s ths i' th l' pc' s' Hth Hrun]; subst.
  intros j thj Hj Hpc. simpl in Hj |- *.
  destruct (decide (i = j)) as [<-|Hne].
  - rewrite list_lookup_insert_eq in Hj by (eapply lookup_lt_Some; eauto).
    injection Hj as <-. simpl in Hpc |- *. destruct Hpc as [->| ->].
    + exact (run_step_to_cleanup _ _ _ _ Hrun).
    + destruct (run_step_to_done _ _ _ _ Hrun) as (Hc & He & _). rewrite He.
      exact (Hinv i th Hth (or_introl Hc)).
  - rewrite list_lookup_insert_ne in Hj by exact Hne.
    eapply run_step_events; [exact Hrun|]. exact (Hinv j thj Hj Hpc).
Qed.

(** X12: under any interleaving of the run phase, a thread that has
    returned normally has set its module's event, and the event stays set
    from then on, so every module waiting on it can proceed. *)
Theorem finished_thread_event_set (mods : list (ModuleDefinition * Module)) (s0 s : State)
    (ths : list RunThread) (i : nat) (th : RunThread) :
  reachable (s0, launch mods) (s, ths) ->
  ths !! i = Some th ->
  rt_pc th = RDone ->
  threading_event_per_module s !! runtime_name (rt_def th) = Some true /\
  (forall c', reachable (s, ths) c' -> threading_event_per_module c'.1 !! runtime_name (rt_def th) = Some true).
Proof.
  intros Hr Hth Hpc.
  assert (Hinv : forall c, reachable (s0, launch mods) c -> done_inv c).
  { intros c Hc. induction Hc; eauto using done_inv_step, done_inv_launch. }
  assert (Hset : threading_event_per_module s !! runtime_name (rt_def th) = Some true)
    by exact (Hinv _ Hr i th Hth (or_intror Hpc)).
  split; [exact Hset|].
  intros c' Hc'. induction Hc' as [|c j l c'' Hc' IH Hstep]; [exact Hset|].
  inversion Hstep as [s1 ths1 j' th1 l' pc' s' Hth1 Hrun]; subst. simpl in *.
  eapply run_step_events; [exact Hrun|exact IH].
Qed.

(** The recipe of [demo_mods] run to its end: [A], then [B]. *)
Definition demo_config_done : Config :=
  default (demo_s0, []) (run_schedule [0; 0; 0; 0; 0; 1; 1; 1; 1; 1; 1] (demo_s0, launch demo_mods)).

Lemma demo_config_done_reachable : reachable (demo_s0, launch demo_mods) demo_config_done.
Proof.
  apply (run_schedule_reachable [0; 0; 0; 0; 0; 1; 1; 1; 1; 1; 1] _ _ _ (reach_refl _)).
  unfold demo_config_done. destruct (run_schedule _ _) eqn:E; [reflexivity|].
  vm_compute in E. discriminate.
Qed.

Lemma finished_thread_event_set_witness :
  reachable (demo_s0, launch demo_mods) demo_config_done /\
  demo_config_done.2 !! 1 = Some (mkRunThread (mkDef "B" None ["A"]) (Plain nop nop) RDone) /\
  threading_event_per_module demo_config_done.1 !! "B" = Some true.
Proof.
  pose proof demo_config_done_reachable as H1.
  assert (H2 : demo_config_done.2 !! 1 = Some (mkRunThread (mkDef "B" None ["A"]) (Plain nop nop) RDone))
    by (vm_compute; reflexivity).
  split; [exact H1|split; [exact H2|]].
  destruct demo_config_done as [s ths].
  exact (proj1 (finished_thread_event_set demo_mods demo_s0 s ths 1 _ H1 H2 eq_refl)).
Defined.

(** X13: [CleanUp] is two statements run without a lock.  When another
    thread's [AddError] runs between [self.global_errors.extend(self.errors)]
    and [self.errors = []], its record is lost: afterwards the round list is
    empty and the global list is the old global list followed by the old
    round list, so a record that was in neither list before is in neither
    list after.  Run before the extend the record reaches the global list;
    run after the reset it stays in the round list. *)
Theorem cleanup_race_drops_error (e : ErrorRecord) (s : State) :
  errors (fst (cleanup_race e s)) = [] /\
  global_errors (fst (cleanup_race e s)) = global_errors s ++ errors s /\
  (~ In e (global_errors s ++ errors s) ->
   ~ In e (global_errors (fst (cleanup_race e s)) ++ errors (fst (cleanup_race e s)))) /\
  global_errors (fst ((let* _ := AddError e in CleanUp) s)) = global_errors s ++ errors s ++ [e] /\
  errors (fst ((let* _ := CleanUp in AddError e) s)) = [e].
Proof.
  unfold cleanup_race, CleanUp, cleanup_extend, cleanup_clear, AddError, bind, modify.
  simpl. destruct (err_critical e); simpl;
    repeat split; rewrite ?app_nil_r, <- ?app_assoc; auto.
Qed.

Lemma cleanup_race_drops_error_witness :
  let s := set_errors [critical_record] init_state in
  let e := mkError "late error" "B" "" false false in
  ~ In e (global_errors s ++ errors s) /\
  global_errors (fst (cleanup_race e s)) ++ errors (fst (cleanup_race e s)) = [critical_record] /\
  ~ In e (global_errors (fst (cleanup_race e s)) ++ errors (fst (cleanup_race e s))).
Proof.
  intros s e.
  assert (H : ~ In e (global_errors s ++ errors s)) by (simpl; intros [H|[]]; discriminate).
  split; [exact H|split; [reflexivity|]].
  exact (proj1 (proj2 (proj2 (cleanup_race_drops_error e s))) H).
Defined.

(* ================================================================== *)
(** * The execution plan: [FormatExecutionPlan] *)

Definition nl : string := String (Ascii.ascii_of_nat 10) EmptyString.

Fixpoint spaces (n : nat) : string :=
  match n with
  | 0 => EmptyString
  | S n => String (Ascii.ascii_of_nat 32) (spaces n)
  end.

(** [s.ljust(width)] *)
Definition ljust (width : nat) (s : string) : string := s ++ spaces (width - String.length s).

(** [max(keys, key=len)] for the keys [k :: ks]: the first longest key. *)
Definition max_by_len (k : string) (ks : list string) : string :=
  fold_left (fun cur x => if String.length cur <? String.length x then x else cur) ks k.

(** [self.recipe.get('preflights', []) + self.recipe.get('modules', [])] *)
Definition plan_modules (r : Recipe) : list RecipeEntry :=
  default [] (r_preflights r) ++ default [] (r_modules r).

Section Plan.
(** Python's [repr], and [utils.ImportArgsFromDict(args,
    self.command_line_options, self.config)] (not part of the state). *)
Variable repr : Value -> string.
Variable ImportArgsFromDict : list (string * Value) -> list (string * Value).

(** The first loop of [FormatExecutionPlan]: the longest argument name. *)
Fixpoint plan_maxlen (modules : list RecipeEntry) (maxlen : nat) : LoadExc + nat :=
  match modules with
  | [] => inr maxlen
  | module :: rest =>
      match re_args module with
      | None => inl (KeyError "args")
      | Some [] => plan_maxlen rest maxlen                (* if not module['args']: continue *)
      | Some ((k, _) :: kvs) =>
          let spacing := String.length (max_by_len k (map fst kvs)) in
          plan_maxlen rest (if spacing <? maxlen then maxlen else spacing)
      end
  end.

Definition plan_header (module : RecipeEntry) : string :=
  match re_runtime_name module with
  | Some rn =>
      if String.eqb rn "" then re_name module ++ ":" ++ nl
      else rn ++ " (" ++ re_name module ++ "):" ++ nl
  | None => re_name module ++ ":" ++ nl
  end.

(** ['  {0:s}{1:s}\n'.format(key.ljust(maxlen + 3), repr(value))] *)
Definition param_line (maxlen : nat) (kv : string * Value) : string :=
  "  " ++ ljust (maxlen + 3) (fst kv) ++ repr (snd kv) ++ nl.

(** The second loop, adding to [plan]. *)
Fixpoint plan_blocks (maxlen : nat) (modules : list RecipeEntry) (plan : string) : LoadExc + string :=
  match modules with
  | [] => inr plan
  | module :: rest =>
      match re_args module with
      | None => inl (KeyError "args")
      | Some args =>
          let new_args := ImportArgsFromDict args in
          let plan1 := (plan ++ plan_header module)%string in
          let plan2 := match new_args with [] => (plan1 ++ "  *No params*" ++ nl)%string | _ => plan1 end in
          plan_blocks maxlen rest (fold_left (fun p kv => (p ++ param_line maxlen kv)%string) new_args plan2)
      end
  end.

Definition FormatExecutionPlan (r : Recipe) : LoadExc + string :=
  let modules := plan_modules r in
  match plan_maxlen modules 0 with
  | inl e => inl e
  | inr maxlen => plan_blocks maxlen modules ""
  end.
End Plan.

Lemma str_app_assoc (a b c : string) : ((a ++ b) ++ c)%string = (a ++ b ++ c)%string.
Proof. induction a as [|x a IH]; [reflexivity | exact (f_equal (String x) IH)]. Qed.

Lemma str_app_nil_r (a : string) : (a ++ EmptyString)%string = a.
Proof. induction a as [|x a IH]; [reflexivity | exact (f_equal (String x) IH)]. Qed.

Lemma str_length_app (a b : string) :
  String.length (a ++ b) = String.length a + String.length b.
Proof. induction a as [|x a IH]; [reflexivity | exact (f_equal S IH)]. Qed.

Lemma spaces_length (n : nat) : String.length (spaces n) = n.
Proof. induction n as [|n IH]; simpl; [reflexivity | now rewrite IH]. Qed.

Lemma max_by_len_spec (ks : list string) (k : string) :
  String.length k <= String.length (max_by_len k ks) /\
  (forall x, In x ks -> String.length x <= String.length (max_by_len k ks)) /\
  In (max_by_len k ks) (k :: ks).
Proof.
  revert k. induction ks as [|x ks IH]; intros k.
  - simpl. split; [lia | split; [tauto | now left]].
  - unfold max_by_len. simpl. fold (max_by_len (if String.length k <? String.length x then x else k) ks).
    set (c := if String.length k <? String.length x then x else k).
    assert (Hc : String.length k <= String.length c /\ String.length x <= String.length c
                 /\ (c = k \/ c = x)).
    { unfold c. destruct (Nat.ltb_spec (String.length k) (String.length x)); lia || (repeat split; lia || tauto). }
    destruct (IH c) as (H1 & H2 & H3).
    split; [lia|split].
    + intros y [<-|Hy]; [lia | now apply H2].
    + destruct H3 as [<-|H3]; [destruct Hc as (_ & _ & [->| ->]); simpl; tauto | simpl; tauto].
Qed.

Lemma plan_maxlen_ok (ms : list RecipeEntry) (m0 maxlen : nat) :
  plan_maxlen ms m0 = inr maxlen ->
  (forall m, In m ms -> re_args m <> None) /\ m0 <= maxlen /\
  (forall m args k, In m ms -> re_args m = Some args -> In k (map fst args) ->
     String.length k <= maxlen) /\
  (maxlen = m0 \/ exists m args k, In m ms /\ re_args m = Some args /\
     In k (map fst args) /\ String.length k = maxlen).
Proof.
  revert m0. induction ms as [|md ms IH]; intros m0 H; simpl in H.
  - injection H as <-. split; [simpl; tauto|split; [lia|split; [simpl; tauto|now left]]].
  - destruct (re_args md) as [args|] eqn:Ha; [|discriminate].
    destruct args as [|[k0 v0] kvs].
    + destruct (IH _ H) as (H1 & H2 & H3 & H4).
      split; [intros m [<-|Hm]; [congruence|auto]|split; [lia|split]].
      * intros m args k [<-|Hm] Hm' Hk; [rewrite Ha in Hm'; injection Hm' as <-; contradiction|eauto].
      * destruct H4 as [->|(m & args & k & Hm & ?)]; [now left|right; exists m, args, k; simpl; tauto].
    + destruct (max_by_len_spec (map fst kvs) k0) as (S1 & S2 & S3).
      set (sp := String.length (max_by_len k0 (map fst kvs))) in *.
      destruct (IH _ H) as (H1 & H2 & H3 & H4).
      split; [intros m [<-|Hm]; [congruence|auto]|split].
      { destruct (Nat.ltb_spec sp m0); lia. }
      split.
      * intros m args k [<-|Hm] Hm' Hk; [|eauto].
        rewrite Ha in Hm'; injection Hm' as <-.
        destruct (Nat.ltb_spec sp m0); simpl in Hk; destruct Hk as [<-|Hk];
          try (specialize (S2 _ Hk)); lia.
      * destruct H4 as [Heq|(m & args & k & Hm & ?)];
          [|right; exists m, args, k; simpl; tauto].
        destruct (Nat.ltb_spec sp m0) as [Hlt|Hge]; [now left|].
        right. exists md, ((k0, v0) :: kvs), (max_by_len k0 (map fst kvs)).
        split; [now left|split; [exact Ha|split; [exact S3|]]]. fold sp. lia.
Qed.

Lemma plan_maxlen_err (ms : list RecipeEntry) (m0 : nat) (e : LoadExc) :
  plan_maxlen ms m0 = inl e <->
  e = KeyError "args" /\ exists m, In m ms /\ re_args m = None.
Proof.
  revert m0. induction ms as [|md ms IH]; intros m0; simpl.
  - split; [discriminate|intros (_ & m & [] & _)].
  - destruct (re_args md) as [args|] eqn:Ha.
    + assert (Hr : plan_maxlen ms m0 = inl e <-> e = KeyError "args" /\ exists m, In m ms /\ re_args m = None)
        by apply IH.
      destruct args as [|[k0 v0] kvs]; rewrite IH;
        (split; [intros (He & m & Hm & Hn); split; [exact He|exists m; tauto]
                |intros (He & m & [<-|Hm] & Hn); [congruence|split; [exact He|exists m; tauto]]]).
    + split; [intros H; injection H as <-; split; [reflexivity|exists md; tauto]
             |intros [-> _]; reflexivity].
Qed.

Section PlanProofs.
Variable repr : Value -> string.
Variable ImportArgsFromDict : list (string * Value) -> list (string * Value).

Definition ends_nl (a : string) : Prop := exists a0, a = (a0 ++ nl)%string.

Lemma param_line_eq (maxlen : nat) (k : string) (v : Value) :
  param_line repr maxlen (k, v) =
  ("  " ++ k ++ spaces (maxlen + 3 - String.length k) ++ repr v ++ nl)%string.
Proof. unfold param_line, ljust. simpl. now rewrite str_app_assoc. Qed.

Lemma param_line_ends (maxlen : nat) (kv : string * Value) :
  exists l0, param_line repr maxlen kv = (l0 ++ nl)%string.
Proof.
  destruct kv as [k v]. rewrite param_line_eq.
  exists ("  " ++ k ++ spaces (maxlen + 3 - String.length k) ++ repr v)%string.
  now rewrite !str_app_assoc.
Qed.

Lemma plan_header_ends (m : RecipeEntry) (a : string) : ends_nl (a ++ plan_header m)%string.
Proof.
  unfold plan_header, ends_nl.
  destruct (re_runtime_name m) as [rn|]; [destruct (String.eqb rn "")|].
  - exists (a ++ re_name m ++ ":")%string. now rewrite !str_app_assoc.
  - exists (a ++ rn ++ " (" ++ re_name m ++ "):")%string. now rewrite !str_app_assoc.
  - exists (a ++ re_name m ++ ":")%string. now rewrite !str_app_assoc.
Qed.

Definition lines (maxlen : nat) (l : list (string * Value)) : string :=
  fold_right (fun kv acc => (param_line repr maxlen kv ++ acc)%string) EmptyString l.

Lemma fold_lines (maxlen : nat) (l : list (string * Value)) (acc : string) :
  fold_left (fun p kv => (p ++ param_line repr maxlen kv)%string) l acc = (acc ++ lines maxlen l)%string.
Proof.
  revert acc. induction l as [|kv l IH]; intros acc; simpl.
  - now rewrite str_app_nil_r.
  - rewrite IH. now rewrite str_app_assoc.
Qed.

Lemma lines_in (maxlen : nat) (l : list (string * Value)) (kv : string * Value) (a : string) :
  In kv l -> ends_nl a ->
  exists pre post, (a ++ lines maxlen l)%string = (pre ++ nl ++ param_line repr maxlen kv ++ post)%string.
Proof.
  revert a. induction l as [|x l IH]; intros a Hin [a0 ->]; [destruct Hin|].
  change (lines maxlen (x :: l)) with (param_line repr maxlen x ++ lines maxlen l)%string.
  destruct Hin as [->|Hin].
  - exists a0, (lines maxlen l). now rewrite str_app_assoc.
  - destruct (IH ((a0 ++ nl) ++ param_line repr maxlen x)%string Hin) as (pre & post & Heq).
    { destruct (param_line_ends maxlen x) as [l0 Hl0]. rewrite Hl0.
      exists ((a0 ++ nl) ++ l0)%string. now rewrite !str_app_assoc. }
    exists pre, post. rewrite <- Heq. now rewrite !str_app_assoc.
Qed.

Lemma plan_blocks_ok (maxlen : nat) (ms : list RecipeEntry) (acc plan : string) :
  plan_blocks repr ImportArgsFromDict maxlen ms acc = inr plan ->
  (exists suf, plan = (acc ++ suf)%string) /\
  (forall m args kv, In m ms -> re_args m = Some args -> In kv (ImportArgsFromDict args) ->
     exists pre post, plan = (pre ++ nl ++ param_line repr maxlen kv ++ post)%string).
Proof.
  revert acc. induction ms as [|md ms IH]; intros acc H; simpl in H.
  - injection H as <-. split; [exists EmptyString|intros ? ? ? []].
    now rewrite str_app_nil_r.
  - destruct (re_args md) as [args|] eqn:Ha; [|discriminate].
    rewrite fold_lines in H.
    set (plan2 := match ImportArgsFromDict args with
                  | [] => ((acc ++ plan_header md) ++ "  *No params*" ++ nl)%string
                  | _ :: _ => (acc ++ plan_header md)%string end) in H.
    destruct (IH _ H) as [[suf Hsuf] Hrest].
    split.
    + exists (((match ImportArgsFromDict args with
                | [] => (plan_header md ++ "  *No params*" ++ nl)%string
                | _ :: _ => plan_header md end) ++ lines maxlen (ImportArgsFromDict args)) ++ suf)%string.
      rewrite Hsuf. unfold plan2.
      destruct (ImportArgsFromDict args); now rewrite !str_app_assoc.
    + intros m args' kv [<-|Hm] Hm' Hkv; [|exact (Hrest m args' kv Hm Hm' Hkv)].
      rewrite Ha in Hm'. injection Hm' as <-.
      destruct (lines_in maxlen (ImportArgsFromDict args) kv plan2 Hkv) as (pre & post & Heq).
      { unfold plan2. destruct (ImportArgsFromDict args); [destruct Hkv|apply plan_header_ends]. }
      exists pre, (post ++ suf)%string. rewrite Hsuf, Heq. now rewrite !str_app_assoc.
Qed.

Lemma plan_blocks_defined (maxlen : nat) (ms : list RecipeEntry) (acc : string) :
  (forall m, In m ms -> re_args m <> None) ->
  exists plan, plan_blocks repr ImportArgsFromDict maxlen ms acc = inr plan.
Proof.
  revert acc. induction ms as [|md ms IH]; intros acc H; simpl; [eauto|].
  destruct (re_args md) eqn:Ha; [apply IH; intros m Hm; apply H; now right|].
  exfalso. apply (H md); [now left|exact Ha].
Qed.
End PlanProofs.

(** X14: when the plan is built, every parameter line of an argument the
    recipe declares is the key left-justified to the longest declared
    argument name plus three, so that all values start in the same column
    (column [maxlen + 5] of their line); [maxlen] is that longest name
    (or 0 when no module has arguments). *)
Theorem plan_values_aligned
    (repr : Value -> string) (ImportArgsFromDict : list (string * Value) -> list (string * Value))
    (r : Recipe) (plan : string) :
  FormatExecutionPlan repr ImportArgsFromDict r = inr plan ->
  exists maxlen,
    (forall m args k, In m (plan_modules r) -> re_args m = Some args -> In k (map fst args) ->
       String.length k <= maxlen) /\
    (maxlen = 0 \/ exists m args k, In m (plan_modules r) /\ re_args m = Some args /\
       In k (map fst args) /\ String.length k = maxlen) /\
    (forall m args k v, In m (plan_modules r) -> re_args m = Some args ->
       In (k, v) (ImportArgsFromDict args) -> In k (map fst args) ->
       String.length ("  " ++ k ++ spaces (maxlen + 3 - String.length k))%string = maxlen + 5 /\
       exists pre post,
         plan = (pre ++ nl ++ ("  " ++ k ++ spaces (maxlen + 3 - String.length k)
                                 ++ repr v ++ nl) ++ post)%string).
Proof.
  unfold FormatExecutionPlan. intros H.
  destruct (plan_maxlen (plan_modules r) 0) as [e|maxlen] eqn:Hm; [discriminate|].
  destruct (plan_maxlen_ok _ _ _ Hm) as (_ & _ & H3 & H4).
  exists maxlen. split; [exact H3|split; [exact H4|]].
  intros m args k v Hin Ha Hkv Hk.
  specialize (H3 m args k Hin Ha Hk).
  split.
  - rewrite !str_length_app, spaces_length. simpl. lia.
  - destruct (plan_blocks_ok repr ImportArgsFromDict _ _ _ _ H) as [_ Hb].
    destruct (Hb m args (k, v) Hin Ha Hkv) as (pre & post & ->).
    exists pre, post. now rewrite param_line_eq.
Qed.

(** X15: [FormatExecutionPlan] fails exactly when one of the recipe's
    preflights or modules has no ['args'] key, and then only with
    [KeyError('args')]; otherwise it always returns a plan. *)
Theorem format_plan_error
    (repr : Value -> string) (ImportArgsFromDict : list (string * Value) -> list (string * Value))
    (r : Recipe) :
  (forall e, FormatExecutionPlan repr ImportArgsFromDict r = inl e <->
     e = KeyError "args" /\ exists m, In m (plan_modules r) /\ re_args m = None) /\
  ((forall m, In m (plan_modules r) -> re_args m <> None) ->
     exists plan, FormatExecutionPlan repr ImportArgsFromDict r = inr plan).
Proof.
  unfold FormatExecutionPlan.
  destruct (plan_maxlen (plan_modules r) 0) as [e0|maxlen] eqn:Hm.
  - pose proof (proj1 (plan_maxlen_err _ _ _) Hm) as [He0 Hex].
    split.
    + intros e. split; [intros H; injection H as <-; tauto|intros [-> _]; now rewrite He0].
    + intros Hall. exfalso. destruct Hex as (m & Hin & Hn). exact (Hall m Hin Hn).
  - destruct (plan_maxlen_ok _ _ _ Hm) as (Hall & _).
    destruct (plan_blocks_defined repr ImportArgsFromDict maxlen _ "" Hall) as [plan Hp].
    split; [|intros _; exists plan; exact Hp].
    intros e. rewrite Hp. split; [discriminate|].
    intros (_ & m & Hin & Hn). exfalso. exact (Hall m Hin Hn).
Qed.

Definition demo_repr (v : Value) : string :=
  match v with VStr t => ("'" ++ t ++ "'")%string | _ => "None" end.
Definition demo_plan : string :=
  match FormatExecutionPlan demo_repr (fun a => a) demo_recipe with
  | inr p => p
  | inl _ => EmptyString
  end.

Lemma plan_values_aligned_witness :
  FormatExecutionPlan demo_repr (fun a => a) demo_recipe = inr demo_plan /\
  exists maxlen,
    (forall m args k, In m (plan_modules demo_recipe) -> re_args m = Some args ->
       In k (map fst args) -> String.length k <= maxlen) /\
    (maxlen = 0 \/ exists m args k, In m (plan_modules demo_recipe) /\ re_args m = Some args /\
       In k (map fst args) /\ String.length k = maxlen) /\
    (forall m args k v, In m (plan_modules demo_recipe) -> re_args m = Some args ->
       In (k, v) args -> In k (map fst args) ->
       String.length ("  " ++ k ++ spaces (maxlen + 3 - String.length k))%string = maxlen + 5 /\
       exists pre post,
         demo_plan = (pre ++ nl ++ ("  " ++ k ++ spaces (maxlen + 3 - String.length k)
                                      ++ demo_repr v ++ nl) ++ post)%string).
Proof.
  assert (H : FormatExecutionPlan demo_repr (fun a => a) demo_recipe = inr demo_plan)
    by reflexivity.
  split; [exact H|].
  exact (plan_values_aligned demo_repr (fun a => a) demo_recipe demo_plan H).
Defined.
